(** * Qubit message service: claim-and-dispatch engine

    A shallow embedding of the Go sources of the message service
    (service/message, env/postgres/messages, pkg/scheduler) together with
    the properties of its validation, mapping, dispatch cycle and recurring
    trigger. *)

From Stdlib Require Import ZArith List String Ascii Bool Lia Arith.
From Stdlib Require Import Permutation Sorted DecimalString.
Import ListNotations.

Local Open Scope string_scope.
Local Open Scope Z_scope.

(** ** Regular expressions (the fragment of Go's regexp syntax used) *)

Module Regexp.

(** Abstract syntax after parsing: literals, byte classes, concatenation,
    alternation and [x?].  A counted repetition [x{n,m}] is expanded by
    [Repeat] into [n] copies of [x] followed by [m-n] copies of [x?]. *)
Inductive re : Type :=
| Void : re
| Eps : re
| Chr : ascii -> re
| Rng : ascii -> ascii -> re
| Seq : re -> re -> re
| Alt : re -> re -> re
| Quest : re -> re.

Fixpoint Power (r : re) (n : nat) : re :=
  match n with
  | O => Eps
  | S k => Seq r (Power r k)
  end.

Fixpoint UpTo (r : re) (n : nat) : re :=
  match n with
  | O => Eps
  | S k => Quest (Seq r (UpTo r k))
  end.

Definition Repeat (r : re) (min max : nat) : re :=
  Seq (Power r min) (UpTo r (max - min)).

Definition in_range (lo hi c : ascii) : bool :=
  (N.leb (N_of_ascii lo) (N_of_ascii c) && N.leb (N_of_ascii c) (N_of_ascii hi))%bool.

Fixpoint nullable (r : re) : bool :=
  match r with
  | Void => false
  | Eps => true
  | Chr _ => false
  | Rng _ _ => false
  | Seq a b => nullable a && nullable b
  | Alt a b => nullable a || nullable b
  | Quest _ => true
  end.

Fixpoint deriv (c : ascii) (r : re) : re :=
  match r with
  | Void => Void
  | Eps => Void
  | Chr d => if Ascii.eqb c d then Eps else Void
  | Rng lo hi => if in_range lo hi c then Eps else Void
  | Seq a b =>
      if nullable a then Alt (Seq (deriv c a) b) (deriv c b)
      else Seq (deriv c a) b
  | Alt a b => Alt (deriv c a) (deriv c b)
  | Quest a => deriv c a
  end.

(** Whole-input match: what [MatchString] decides for a pattern that is
    anchored at both ends with [^] and [$]. *)
Fixpoint MatchString (r : re) (s : string) : bool :=
  match s with
  | EmptyString => nullable r
  | String c s' => MatchString (deriv c r) s'
  end.

(** The language of an expression, as a relation. *)
Inductive lang : re -> string -> Prop :=
| lang_eps : lang Eps EmptyString
| lang_chr c : lang (Chr c) (String c EmptyString)
| lang_rng lo hi c :
    in_range lo hi c = true -> lang (Rng lo hi) (String c EmptyString)
| lang_seq a b s t : lang a s -> lang b t -> lang (Seq a b) (s ++ t)
| lang_alt_l a b s : lang a s -> lang (Alt a b) s
| lang_alt_r a b s : lang b s -> lang (Alt a b) s
| lang_quest_none a : lang (Quest a) EmptyString
| lang_quest_some a s : lang a s -> lang (Quest a) s.

End Regexp.

(** ** service/message/domain.go *)

Definition MaxContentLength : Z := 500.

(** [^\+?[1-9]\d{1,14}$] *)
Definition phoneRegex : Regexp.re :=
  Regexp.Seq (Regexp.Quest (Regexp.Chr "+"%char))
    (Regexp.Seq (Regexp.Rng "1"%char "9"%char)
       (Regexp.Repeat (Regexp.Rng "0"%char "9"%char) 1 14)).

(** [time.Time] is an instant; [*string] and [*time.Time] are nullable. *)
Definition Time : Type := Z.

Record Message : Type := mkMessage {
  ID : Z;
  PhoneNumber : string;
  Content : string;
  CreatedAt : Time;
  MessageID : option string;
  ProcessedAt : option Time
}.

(** Go's [len] of a string: its number of bytes. *)
Definition len (s : string) : Z := Z.of_nat (String.length s).

Definition is_empty (s : string) : bool :=
  match s with EmptyString => true | _ => false end.

(** [error] values are their messages; [None] is the nil error. *)
Definition error : Type := string.

Definition Validate (m : Message) : option error :=
  if is_empty (PhoneNumber m) then
    Some "phone number is required"
  else if negb (Regexp.MatchString phoneRegex (PhoneNumber m)) then
    Some "invalid phone number format (expected: +1234567890)"
  else if is_empty (Content m) then
    Some "message content is required"
  else if len (Content m) >? MaxContentLength then
    Some "message content exceeds maximum length of 500 characters"
  else None.

(** ** env/postgres/messages: the persistence record *)

Module messages.
Record Message : Type := mkMessage {
  ID : Z;
  PhoneNumber : string;
  Content : string;
  CreatedAt : Time;
  MessageID : option string;
  ProcessedAt : option Time
}.
End messages.

(** ** service/message/mapper.go

    A possibly-nil pointer to a record is an [option]; the struct literal
    built behind a non-nil pointer is [toDomain] / [toPostgres]. *)

Definition toDomain (message : messages.Message) : Message :=
  {| ID := messages.ID message;
     PhoneNumber := messages.PhoneNumber message;
     Content := messages.Content message;
     CreatedAt := messages.CreatedAt message;
     MessageID := messages.MessageID message;
     ProcessedAt := messages.ProcessedAt message |}.

Definition toPostgres (domainMsg : Message) : messages.Message :=
  {| messages.ID := ID domainMsg;
     messages.PhoneNumber := PhoneNumber domainMsg;
     messages.Content := Content domainMsg;
     messages.CreatedAt := CreatedAt domainMsg;
     messages.MessageID := MessageID domainMsg;
     messages.ProcessedAt := ProcessedAt domainMsg |}.

Definition ToDomain (message : option messages.Message) : option Message :=
  match message with
  | None => None
  | Some p => Some (toDomain p)
  end.

Definition ToPostgres (domainMsg : option Message) : option messages.Message :=
  match domainMsg with
  | None => None
  | Some m => Some (toPostgres m)
  end.

(** The slices handed to [ToDomainSlice] come from the repository's scan
    loops, which allocate every element, so the elements are records. *)
Definition ToDomainSlice (dbMessages : list messages.Message) : list Message :=
  map toDomain dbMessages.

(** ** Effects of the service

    The service talks to a connection pool, to the transaction it opened
    on it ([pgx.Tx], an interface), to the webhook client and to the clock.
    A computation threads the state [W] of that outside world and records
    the calls it makes, in order.  Of the log lines only the one written
    for a failed item, [LogSendError], is kept. *)

Inductive result (A : Type) : Type :=
| Ok : A -> result A
| Err : error -> result A.
Arguments Ok {A} _.
Arguments Err {A} _.

(** How a query and the scan of its rows end: [Query] fails, [rows.Scan]
    fails on some row, [rows.Err] reports a failure after the last row, or
    all rows are read. *)
Inductive fetch : Type :=
| QueryFailed : error -> fetch
| ScanFailed : error -> fetch
| IterFailed : error -> fetch
| Fetched : list messages.Message -> fetch.

Inductive Call : Type :=
| CallBegin : Call
| CallQueryUnsent : Z -> Call
| CallExecUpdate : Z -> option string -> option Time -> Call
| CallCommit : Call
| CallRollback : Call
| CallInsert : string -> string -> Time -> Call
| CallQuerySent : option Z -> Call
| CallSend : string -> string -> Call
| LogSendError : Z -> error -> Call.

Definition M (W A : Type) : Type := W -> A * W * list Call.

Definition ret {W A} (a : A) : M W A := fun w => (a, w, []).

Definition bind {W A B} (m : M W A) (f : A -> M W B) : M W B :=
  fun w =>
    let '(a, w1, t1) := m w in
    let '(b, w2, t2) := f a w1 in
    (b, w2, (t1 ++ t2)%list).

Definition call {W A} (c : Call) (op : W -> A * W) : M W A :=
  fun w => let '(a, w') := op w in (a, w', [c]).

Definition quiet {W A} (op : W -> A * W) : M W A :=
  fun w => let '(a, w') := op w in (a, w', []).

Declare Scope go_scope.
Delimit Scope go_scope with go.
Notation "x <- m ;; k" := (bind m (fun x => k))
  (at level 61, m at next level, right associativity) : go_scope.
Notation "m ;;; k" := (bind m (fun _ => k))
  (at level 61, right associativity) : go_scope.

(** What the outside world offers.  [tx_query_unsent] stands for [tx.Query]
    of the claiming statement followed by the scan of all its rows;
    [tx_exec_update] returns the number of rows affected. *)
Record Ops (W : Type) : Type := mkOps {
  pool_begin : W -> option error * W;
  tx_query_unsent : Z -> W -> fetch * W;
  tx_exec_update : Z -> option string -> option Time -> W -> result Z * W;
  tx_commit : W -> option error * W;
  tx_rollback : W -> option error * W;
  pool_insert : string -> string -> Time -> W -> result Z * W;
  pool_query_sent : option Z -> W -> fetch * W;
  webhook_send : string -> string -> W -> result string * W;
  time_now : W -> Time * W
}.
Arguments pool_begin {W} _.
Arguments tx_query_unsent {W} _.
Arguments tx_exec_update {W} _.
Arguments tx_commit {W} _.
Arguments tx_rollback {W} _.
Arguments pool_insert {W} _.
Arguments pool_query_sent {W} _.
Arguments webhook_send {W} _.
Arguments time_now {W} _.

Definition wrap (prefix : string) (e : error) : error := prefix ++ ": " ++ e.

(** [time.Time.IsZero]: instants are counted from the zero [Time]. *)
Definition IsZero (t : Time) : bool := t =? 0.

Section Service.
Context {W : Type} (ops : Ops W).
Local Open Scope go_scope.

(** *** env/postgres/client.go *)

Definition BeginTx : M W (option error) :=
  r <- call CallBegin (pool_begin ops) ;;
  match r with
  | Some e => ret (Some (wrap "failed to begin transaction" e))
  | None => ret None
  end.

(** *** env/postgres/messages: the repository *)

(** The [LIMIT] clause is appended only for a positive limit. *)
Definition ListSent (limit : Z) : M W (result (list messages.Message)) :=
  let clause := if limit >? 0 then Some limit else None in
  r <- call (CallQuerySent clause) (pool_query_sent ops clause) ;;
  match r with
  | QueryFailed e => ret (Err (wrap "failed to query messages" e))
  | ScanFailed e => ret (Err (wrap "failed to scan message" e))
  | IterFailed e => ret (Err (wrap "error iterating messages" e))
  | Fetched rows => ret (Ok rows)
  end.

Definition ListAndLockUnsent (limit : Z) : M W (result (list messages.Message)) :=
  r <- call (CallQueryUnsent limit) (tx_query_unsent ops limit) ;;
  match r with
  | QueryFailed e => ret (Err (wrap "failed to query and lock unsent messages" e))
  | ScanFailed e => ret (Err (wrap "failed to scan message" e))
  | IterFailed e => ret (Err (wrap "error iterating messages" e))
  | Fetched rows => ret (Ok rows)
  end.

(** [Create] writes the generated id and, when it was zero, the creation
    time into the record it was given; the updated record is returned. *)
Definition Create (msg : messages.Message) : M W (messages.Message * option error) :=
  createdAt <- (if IsZero (messages.CreatedAt msg)
                then quiet (time_now ops)
                else ret (messages.CreatedAt msg)) ;;
  let msg1 :=
    {| messages.ID := messages.ID msg;
       messages.PhoneNumber := messages.PhoneNumber msg;
       messages.Content := messages.Content msg;
       messages.CreatedAt := createdAt;
       messages.MessageID := messages.MessageID msg;
       messages.ProcessedAt := messages.ProcessedAt msg |} in
  r <- call (CallInsert (messages.PhoneNumber msg1) (messages.Content msg1) createdAt)
         (pool_insert ops (messages.PhoneNumber msg1) (messages.Content msg1) createdAt) ;;
  match r with
  | Err e => ret (msg1, Some (wrap "failed to create message" e))
  | Ok id =>
      ret ({| messages.ID := id;
              messages.PhoneNumber := messages.PhoneNumber msg1;
              messages.Content := messages.Content msg1;
              messages.CreatedAt := messages.CreatedAt msg1;
              messages.MessageID := messages.MessageID msg1;
              messages.ProcessedAt := messages.ProcessedAt msg1 |}, None)
  end.

(** [fmt.Errorf("message with id %d not found", id)] *)
Definition not_found (id : Z) : error :=
  "message with id " ++ NilZero.string_of_int (Z.to_int id) ++ " not found".

Definition UpdateWithTx (id : Z) (messageID : option string)
    (processedAt : option Time) : M W (option error) :=
  r <- call (CallExecUpdate id messageID processedAt)
         (tx_exec_update ops id messageID processedAt) ;;
  match r with
  | Err e => ret (Some (wrap "failed to update message" e))
  | Ok affected =>
      if affected =? 0 then ret (Some (not_found id)) else ret None
  end.
End Service.

(** ** service/message/service.go *)

Section MessageService.
Context {W : Type} (ops : Ops W).
Local Open Scope go_scope.

(** [webhook.Client.SendMessage], whose outcome the world decides. *)
Definition SendMessage (phoneNumber content : string) : M W (result string) :=
  call (CallSend phoneNumber content) (webhook_send ops phoneNumber content).

Definition GetSentMessages : M W (result (list Message)) :=
  r <- ListSent ops 0 ;;
  match r with
  | Err e => ret (Err (wrap "failed to get sent messages" e))
  | Ok dbMessages => ret (Ok (ToDomainSlice dbMessages))
  end.

Definition CreateMessage (phoneNumber content : string) : M W (result Message) :=
  now <- quiet (time_now ops) ;;
  let msg := {| ID := 0; PhoneNumber := phoneNumber; Content := content;
                CreatedAt := now; MessageID := None; ProcessedAt := None |} in
  match Validate msg with
  | Some e => ret (Err (wrap "validation failed" e))
  | None =>
      let dbMsg := toPostgres msg in
      r <- Create ops dbMsg ;;
      match r with
      | (_, Some e) => ret (Err (wrap "failed to create message" e))
      | (dbMsg', None) =>
          ret (Ok {| ID := messages.ID dbMsg';
                     PhoneNumber := PhoneNumber msg;
                     Content := Content msg;
                     CreatedAt := CreatedAt msg;
                     MessageID := MessageID msg;
                     ProcessedAt := ProcessedAt msg |})
      end
  end.

Definition sendMessageWithTx (msg : Message) : M W (option error) :=
  r <- SendMessage (PhoneNumber msg) (Content msg) ;;
  match r with
  | Err e => ret (Some (wrap "failed to send message" e))
  | Ok messageID =>
      sentAt <- quiet (time_now ops) ;;
      u <- UpdateWithTx ops (ID msg) (Some messageID) (Some sentAt) ;;
      match u with
      | Some e => ret (Some (wrap "failed to update message status" e))
      | None => ret None
      end
  end.

(** The body of the [for _, msg := range unsentMessages] loop: an error
    of the item is logged, nothing else. *)
Definition loopBody (msg : Message) : M W unit :=
  sendErr <- sendMessageWithTx msg ;;
  match sendErr with
  | Some e => call (LogSendError (ID msg) e) (fun w => (tt, w))
  | None => ret tt
  end.

Fixpoint sendEach (unsentMessages : list Message) : M W unit :=
  match unsentMessages with
  | [] => ret tt
  | msg :: rest => loopBody msg ;;; sendEach rest
  end.

(** The deferred function of [ProcessUnsentMessages]; a failure of the
    rollback itself is only logged. *)
Definition deferredRollback : M W unit :=
  _ <- call CallRollback (tx_rollback ops) ;; ret tt.

(** The deferred rollback looks at the function's own [err], which only
    [BeginTx] and [ListAndLockUnsent] assign: the two commits bind a
    fresh [err] in their [if] statement.  [s.mu] serialises the cycles of
    one process, so one cycle is a sequential computation. *)
Definition ProcessUnsentMessages (batchSize : Z) : M W (option error) :=
  b <- BeginTx ops ;;
  match b with
  | Some e => ret (Some (wrap "failed to begin transaction" e))
  | None =>
      q <- ListAndLockUnsent ops batchSize ;;
      match q with
      | Err e =>
          deferredRollback ;;;
          ret (Some (wrap "failed to fetch and lock unsent messages" e))
      | Ok dbMessages =>
          match dbMessages with
          | [] =>
              c <- call CallCommit (tx_commit ops) ;;
              match c with
              | Some e => ret (Some (wrap "failed to commit transaction" e))
              | None => ret None
              end
          | _ :: _ =>
              let unsentMessages := ToDomainSlice dbMessages in
              sendEach unsentMessages ;;;
              c <- call CallCommit (tx_commit ops) ;;
              match c with
              | Some e => ret (Some (wrap "failed to commit transaction" e))
              | None => ret None
              end
          end
      end
  end.
End MessageService.

(** ** The store: PostgreSQL as the service uses it

    One table [messages], row locks, and the single transaction that the
    process has open (cycles are serialised by [s.mu]).  Failures of the
    connection, the outcomes of the webhook and the readings of the clock
    are inputs, collected in [Faults]. *)

Module Pg.

Record TxState : Type := mkTx {
  work : list messages.Message;   (* the table as the transaction sees it *)
  held : list Z;                  (* ids of the rows it has locked *)
  aborted : bool                  (* a statement failed *)
}.

Record Faults : Type := mkFaults {
  begin_fault : option error;
  query_fault : option error;     (* [tx.Query] fails, nothing is selected *)
  scan_fault : option error;      (* [rows.Scan] fails, the rows are locked already *)
  iter_fault : option error;      (* [rows.Err] reports a failure, likewise *)
  exec_fault : Z -> option error;
  exec_misses : Z -> bool;        (* the row is gone when the UPDATE looks for it *)
  commit_fault : option error;
  rollback_fault : option error;
  insert_fault : option error;
  list_fault : option error;
  delivery : nat -> result string;  (* outcome of the n-th webhook call *)
  clock : nat -> Time               (* n-th reading of the clock *)
}.

Record World : Type := mkWorld {
  rows : list messages.Message;   (* committed rows, in physical order *)
  nextval : Z;                    (* the SERIAL sequence of [id] *)
  locked : list Z;                (* ids of rows locked by open transactions *)
  tx : option TxState;
  sends : nat;
  reads : nat;
  faults : Faults
}.

Definition mem (i : Z) (l : list Z) : bool := existsb (Z.eqb i) l.

Definition pending (r : messages.Message) : bool :=
  match messages.ProcessedAt r with None => true | Some _ => false end.

(** [ORDER BY created_at ASC], rows of equal time kept in table order. *)
Fixpoint insert_by_created (r : messages.Message) (l : list messages.Message)
  : list messages.Message :=
  match l with
  | [] => [r]
  | x :: t =>
      if messages.CreatedAt r <=? messages.CreatedAt x then r :: l
      else x :: insert_by_created r t
  end.

Fixpoint order_by_created (l : list messages.Message) : list messages.Message :=
  match l with
  | [] => []
  | x :: t => insert_by_created x (order_by_created t)
  end.

Definition set_tx (w : World) (t : option TxState) : World :=
  {| rows := rows w; nextval := nextval w; locked := locked w; tx := t;
     sends := sends w; reads := reads w; faults := faults w |}.

Definition abort (t : TxState) : TxState :=
  {| work := work t; held := held t; aborted := true |}.

Definition begin (w : World) : option error * World :=
  match begin_fault (faults w) with
  | Some e => (Some e, w)
  | None => (None, set_tx w (Some {| work := rows w; held := []; aborted := false |}))
  end.

(** A row is free for this transaction when no other one holds it. *)
Definition free (w : World) (t : TxState) (r : messages.Message) : bool :=
  negb (mem (messages.ID r) (locked w)) || mem (messages.ID r) (held t).

(** [SELECT ... WHERE processed_at IS NULL ORDER BY created_at ASC
    LIMIT $1 FOR UPDATE SKIP LOCKED] *)
Definition select_unsent (w : World) (t : TxState) (limit : Z) : list messages.Message :=
  firstn (Z.to_nat limit)
    (order_by_created (filter (fun r => pending r && free w t r) (work t))).

Definition query_unsent (limit : Z) (w : World) : fetch * World :=
  match tx w with
  | None => (QueryFailed "tx is closed", w)
  | Some t =>
      if aborted t then (QueryFailed "current transaction is aborted", w)
      else match query_fault (faults w) with
      | Some e => (QueryFailed e, set_tx w (Some (abort t)))
      | None =>
          if limit <? 0 then
            (QueryFailed "LIMIT must not be negative", set_tx w (Some (abort t)))
          else
            let sel := select_unsent w t limit in
            let ids := filter (fun i => negb (mem i (held t))) (map messages.ID sel) in
            let w' :=
              {| rows := rows w; nextval := nextval w;
                 locked := locked w ++ ids;
                 tx := Some {| work := work t; held := held t ++ ids; aborted := false |};
                 sends := sends w; reads := reads w; faults := faults w |} in
            match scan_fault (faults w), iter_fault (faults w) with
            | Some e, _ => (ScanFailed e, w')
            | None, Some e => (IterFailed e, w')
            | None, None => (Fetched sel, w')
            end
      end
  end.

Definition set_outcome (mid : option string) (pat : option Time)
    (r : messages.Message) : messages.Message :=
  {| messages.ID := messages.ID r;
     messages.PhoneNumber := messages.PhoneNumber r;
     messages.Content := messages.Content r;
     messages.CreatedAt := messages.CreatedAt r;
     messages.MessageID := mid;
     messages.ProcessedAt := pat |}.

(** [UPDATE messages SET message_id = $1, processed_at = $2 WHERE id = $3];
    the result is the number of rows affected. *)
Definition exec_update (id : Z) (mid : option string) (pat : option Time)
    (w : World) : result Z * World :=
  match tx w with
  | None => (Err "tx is closed", w)
  | Some t =>
      if aborted t then (Err "current transaction is aborted", w)
      else match exec_fault (faults w) id with
      | Some e => (Err e, set_tx w (Some (abort t)))
      | None =>
          let hit := fun r => (messages.ID r =? id) && negb (exec_misses (faults w) id) in
          let n := Z.of_nat (List.length (filter hit (work t))) in
          let work' := map (fun r => if hit r then set_outcome mid pat r else r) (work t) in
          (Ok n, set_tx w (Some {| work := work'; held := held t; aborted := false |}))
      end
  end.

Definition release (w : World) (t : TxState) : list Z :=
  filter (fun i => negb (mem i (held t))) (locked w).

(** Ending a transaction closes it and frees its locks whatever the
    answer; its writes reach the table only if the commit succeeds. *)
Definition commit (w : World) : option error * World :=
  match tx w with
  | None => (Some "tx is closed", w)
  | Some t =>
      let keep := {| rows := rows w; nextval := nextval w; locked := release w t;
                     tx := None; sends := sends w; reads := reads w;
                     faults := faults w |} in
      if aborted t then (Some "commit unexpectedly resulted in rollback", keep)
      else match commit_fault (faults w) with
      | Some e => (Some e, keep)
      | None =>
          (None, {| rows := work t; nextval := nextval w; locked := release w t;
                    tx := None; sends := sends w; reads := reads w;
                    faults := faults w |})
      end
  end.

Definition rollback (w : World) : option error * World :=
  match tx w with
  | None => (Some "tx is closed", w)
  | Some t =>
      (rollback_fault (faults w),
       {| rows := rows w; nextval := nextval w; locked := release w t;
          tx := None; sends := sends w; reads := reads w; faults := faults w |})
  end.

(** [INSERT INTO messages (phone_number, content, created_at) ...
    RETURNING id], outside any transaction. *)
Definition insert (phone content : string) (createdAt : Time) (w : World)
  : result Z * World :=
  match insert_fault (faults w) with
  | Some e => (Err e, w)
  | None =>
      let r := {| messages.ID := nextval w; messages.PhoneNumber := phone;
                  messages.Content := content; messages.CreatedAt := createdAt;
                  messages.MessageID := None; messages.ProcessedAt := None |} in
      (Ok (nextval w),
       {| rows := rows w ++ [r]; nextval := nextval w + 1; locked := locked w;
          tx := tx w; sends := sends w; reads := reads w; faults := faults w |})
  end.

Definition query_sent (limit : option Z) (w : World) : fetch * World :=
  match list_fault (faults w) with
  | Some e => (QueryFailed e, w)
  | None =>
      let all := order_by_created (filter (fun r => negb (pending r)) (rows w)) in
      match limit with
      | Some n => (Fetched (firstn (Z.to_nat n) all), w)
      | None => (Fetched all, w)
      end
  end.

Definition send (phone content : string) (w : World) : result string * World :=
  (delivery (faults w) (sends w),
   {| rows := rows w; nextval := nextval w; locked := locked w; tx := tx w;
      sends := S (sends w); reads := reads w; faults := faults w |}).

Definition now (w : World) : Time * World :=
  (clock (faults w) (reads w),
   {| rows := rows w; nextval := nextval w; locked := locked w; tx := tx w;
      sends := sends w; reads := S (reads w); faults := faults w |}).

Definition ops : Ops World :=
  {| pool_begin := begin;
     tx_query_unsent := query_unsent;
     tx_exec_update := exec_update;
     tx_commit := commit;
     tx_rollback := rollback;
     pool_insert := insert;
     pool_query_sent := query_sent;
     webhook_send := send;
     time_now := now |}.

End Pg.

(** ** pkg/scheduler: the recurring trigger

    A [Client] and the goroutines that execute its [run] loop, as a
    transition system.  The steps are the atomic actions of the code: a
    call of [Start]; the two halves of [Stop] (up to [wg.Wait], and its
    return); and, for each loop, the call of [processTask], the return of
    the task, the receipt of a tick and the receipt of the cancellation.
    The ticker is part of the environment: a tick may reach a loop
    whenever that loop is blocked in its [select]. *)

Module scheduler.

Definition wrap64 (z : Z) : Z := (z + 2 ^ 63) mod 2 ^ 64 - 2 ^ 63.

(** [time.Minute], in nanoseconds. *)
Definition Minute : Z := 60000000000.

(** Where a goroutine executing [run] stands. *)
Inductive Loop : Type :=
| Firing    (* about to call [processTask] *)
| InTask    (* inside [c.task], holding [taskRunning] *)
| Waiting.  (* blocked in the [select] *)

Section Client.
Variable Task : Type.

Record Client : Type := mkClient {
  task : option Task;
  interval : Z;
  ticker : option bool;    (* nil, or a ticker and whether it is still ticking *)
  ctx : option bool;       (* nil, or a context and whether it is cancelled *)
  mu : bool;               (* held by a [Stop] that is waiting *)
  wg : nat;
  taskRunning : bool;
  loops : list Loop
}.

Definition Run : Client :=
  {| task := None; interval := 0; ticker := None; ctx := None; mu := false;
     wg := 0; taskRunning := false; loops := [] |}.

(** How a call ends: normally, or in a panic. *)
Inductive outcome : Type :=
| Returned : Client -> outcome
| Panicked : Client -> outcome.

(** [time.NewTicker] panics on a non-positive interval; the fields
    assigned before it keep their new values. *)
Definition Start (c : Client) (t : Task) (intervalMinutes : Z) : outcome :=
  let d := wrap64 (intervalMinutes * Minute) in
  if d <=? 0 then
    Panicked {| task := Some t; interval := d; ticker := ticker c;
                ctx := Some false; mu := mu c; wg := wg c;
                taskRunning := taskRunning c; loops := loops c |}
  else
    Returned {| task := Some t; interval := d; ticker := Some true;
                ctx := Some false; mu := mu c; wg := S (wg c);
                taskRunning := taskRunning c; loops := loops c ++ [Firing] |}.

(** [Stop] up to [c.wg.Wait()]: the ticker is stopped and the context
    cancelled, with [c.mu] held. *)
Definition Stop_signal (c : Client) : Client :=
  {| task := task c; interval := interval c;
     ticker := match ticker c with Some _ => Some false | None => None end;
     ctx := match ctx c with Some _ => Some true | None => None end;
     mu := true; wg := wg c; taskRunning := taskRunning c; loops := loops c |}.

(** [c.wg.Wait()] returns once the counter is zero; [Stop] then
    releases [c.mu] and returns nil. *)
Definition Stop_return (c : Client) : option Client :=
  match wg c with
  | O => Some {| task := task c; interval := interval c; ticker := ticker c;
                 ctx := ctx c; mu := false; wg := wg c;
                 taskRunning := taskRunning c; loops := loops c |}
  | S _ => None
  end.

Definition set_loops (c : Client) (running : bool) (ls : list Loop) : Client :=
  {| task := task c; interval := interval c; ticker := ticker c; ctx := ctx c;
     mu := mu c; wg := wg c; taskRunning := running; loops := ls |}.

Fixpoint update (i : nat) (l : Loop) (ls : list Loop) : list Loop :=
  match ls, i with
  | [], _ => []
  | _ :: t, O => l :: t
  | x :: t, S k => x :: update k l t
  end.

Fixpoint remove_at (i : nat) (ls : list Loop) : list Loop :=
  match ls, i with
  | [], _ => []
  | _ :: t, O => t
  | x :: t, S k => x :: remove_at k t
  end.

(** [processTask] up to the call of the task: [TryLock] fails when the
    guard is held and the function returns at once; the flag tells
    whether the task is invoked. *)
Definition processTask_enter (c : Client) (i : nat) : Client * bool :=
  if taskRunning c then (set_loops c (taskRunning c) (update i Waiting (loops c)), false)
  else (set_loops c true (update i InTask (loops c)), true).

(** The task has returned: the deferred [Unlock] runs. *)
Definition processTask_leave (c : Client) (i : nat) : Client :=
  set_loops c false (update i Waiting (loops c)).

(** [defer c.wg.Done()] when [run] returns. *)
Definition run_exit (c : Client) (i : nat) : Client :=
  {| task := task c; interval := interval c; ticker := ticker c; ctx := ctx c;
     mu := mu c; wg := pred (wg c); taskRunning := taskRunning c;
     loops := remove_at i (loops c) |}.

Inductive Event : Type :=
| EvStart : Task -> Z -> Event   (* a caller runs [Start] *)
| EvStop : Event                 (* a caller runs [Stop] up to [wg.Wait] *)
| EvStopped : Event              (* [wg.Wait] and [Stop] return *)
| EvFire : nat -> Event          (* loop [i] calls [processTask] *)
| EvDone : nat -> Event          (* the task returns in loop [i] *)
| EvTick : nat -> Event          (* loop [i] receives from [ticker.C] *)
| EvQuit : nat -> Event.         (* loop [i] receives from [ctx.Done()] *)

(** One step; [None] when the action cannot happen in this state. *)
Definition step (e : Event) (c : Client) : option Client :=
  match e with
  | EvStart t n =>
      if mu c then None
      else match Start c t n with
           | Returned c' => Some c'
           | Panicked c' => Some c'
           end
  | EvStop => if mu c then None else Some (Stop_signal c)
  | EvStopped => if mu c then Stop_return c else None
  | EvFire i =>
      match nth_error (loops c) i with
      | Some Firing => Some (fst (processTask_enter c i))
      | _ => None
      end
  | EvDone i =>
      match nth_error (loops c) i with
      | Some InTask => Some (processTask_leave c i)
      | _ => None
      end
  | EvTick i =>
      match nth_error (loops c) i with
      | Some Waiting => Some (set_loops c (taskRunning c) (update i Firing (loops c)))
      | _ => None
      end
  | EvQuit i =>
      match nth_error (loops c) i, ctx c with
      | Some Waiting, Some true => Some (run_exit c i)
      | _, _ => None
      end
  end.

Fixpoint exec (es : list Event) (c : Client) : option Client :=
  match es with
  | [] => Some c
  | e :: rest =>
      match step e c with
      | Some c' => exec rest c'
      | None => None
      end
  end.

(** Number of task invocations in progress. *)
Definition in_task (l : Loop) : bool :=
  match l with InTask => true | _ => false end.

Definition invocations (c : Client) : nat :=
  List.length (filter in_task (loops c)).

(** The trigger is Running when a loop of it is alive. *)
Definition Running (c : Client) : Prop := loops c <> [].
End Client.

Arguments task {Task} _.
Arguments interval {Task} _.
Arguments ticker {Task} _.
Arguments ctx {Task} _.
Arguments mu {Task} _.
Arguments wg {Task} _.
Arguments taskRunning {Task} _.
Arguments loops {Task} _.
Arguments Returned {Task} _.
Arguments Panicked {Task} _.
Arguments Start {Task} _ _ _.
Arguments Stop_signal {Task} _.
Arguments Stop_return {Task} _.
Arguments processTask_enter {Task} _ _.
Arguments processTask_leave {Task} _ _.
Arguments run_exit {Task} _ _.
Arguments step {Task} _ _.
Arguments exec {Task} _ _.
Arguments invocations {Task} _.
Arguments Running {Task} _.
Arguments EvStart {Task} _ _.
Arguments EvStop {Task}.
Arguments EvStopped {Task}.
Arguments EvFire {Task} _.
Arguments EvDone {Task} _.
Arguments EvTick {Task} _.
Arguments EvQuit {Task} _.

End scheduler.

(** ** service/message/service.go: control of the trigger

    [NewService], [StartScheduler] and [StopScheduler], for callers that
    come one at a time: a call is in flight from the moment it enters
    [Stop] until [wg.Wait] has returned and the rest of the call has run. *)

Module control.

(** The closure handed to the scheduler; it calls
    [s.ProcessUnsentMessages(ctx, s.messageBatchSize)]. *)
Inductive Task : Type := processUnsent.

(** What remains of the call in flight once [Stop] returns. *)
Inductive Cont : Type :=
| ThenReturn : Cont
| ThenStart : Z -> Z -> Cont.

Record Service : Type := mkService {
  sched : scheduler.Client Task;
  intervalMinutes : Z;
  messageBatchSize : Z;
  inflight : option Cont
}.

(** A panic of [Start] leaves [NewService] without a service. *)
Definition NewService (minutes batch : Z) : option Service :=
  match scheduler.Start (scheduler.Run Task) processUnsent minutes with
  | scheduler.Returned c =>
      Some {| sched := c; intervalMinutes := minutes; messageBatchSize := batch;
              inflight := None |}
  | scheduler.Panicked _ => None
  end.

Inductive Event : Type :=
| StartScheduler : Z -> Z -> Event   (* the call enters [s.scheduler.Stop()] *)
| StopScheduler : Event              (* the call enters [s.scheduler.Stop()] *)
| Resume : Event                     (* [Stop] returns and the call completes *)
| Loop : scheduler.Event Task -> Event.

Definition is_loop_event (e : scheduler.Event Task) : bool :=
  match e with
  | scheduler.EvFire _ | scheduler.EvDone _
  | scheduler.EvTick _ | scheduler.EvQuit _ => true
  | _ => false
  end.

Definition enter_stop (s : Service) (k : Cont) : option Service :=
  match inflight s with
  | Some _ => None
  | None =>
      if scheduler.mu (sched s) then None
      else Some {| sched := scheduler.Stop_signal (sched s);
                   intervalMinutes := intervalMinutes s;
                   messageBatchSize := messageBatchSize s;
                   inflight := Some k |}
  end.

Definition resume (s : Service) : option Service :=
  match inflight s with
  | None => None
  | Some k =>
      match scheduler.Stop_return (sched s) with
      | None => None
      | Some c =>
          match k with
          | ThenReturn =>
              Some {| sched := c; intervalMinutes := intervalMinutes s;
                      messageBatchSize := messageBatchSize s; inflight := None |}
          | ThenStart minutes batch =>
              let c' := match scheduler.Start c processUnsent minutes with
                        | scheduler.Returned c' => c'
                        | scheduler.Panicked c' => c'
                        end in
              Some {| sched := c'; intervalMinutes := minutes;
                      messageBatchSize := batch; inflight := None |}
          end
      end
  end.

Definition step (e : Event) (s : Service) : option Service :=
  match e with
  | StartScheduler minutes batch => enter_stop s (ThenStart minutes batch)
  | StopScheduler => enter_stop s ThenReturn
  | Resume => resume s
  | Loop le =>
      if is_loop_event le then
        match scheduler.step le (sched s) with
        | Some c => Some {| sched := c; intervalMinutes := intervalMinutes s;
                            messageBatchSize := messageBatchSize s;
                            inflight := inflight s |}
        | None => None
        end
      else None
  end.

Fixpoint exec (es : list Event) (s : Service) : option Service :=
  match es with
  | [] => Some s
  | e :: rest =>
      match step e s with
      | Some s' => exec rest s'
      | None => None
      end
  end.

End control.

(** ** Vocabulary of the properties *)

Definition is_digit (c : ascii) : bool := Regexp.in_range "0"%char "9"%char c.

Definition is_nonzero_digit (c : ascii) : bool := Regexp.in_range "1"%char "9"%char c.

Fixpoint all_digits (s : string) : bool :=
  match s with
  | EmptyString => true
  | String c t => is_digit c && all_digits t
  end.

(** An optional [+], a digit from 1 to 9, then between one and fourteen
    further digits. *)
Definition phone_number_like (s : string) : Prop :=
  exists sign d rest,
    s = sign ++ String d rest /\
    (sign = EmptyString \/ sign = "+") /\
    is_nonzero_digit d = true /\
    all_digits rest = true /\
    (1 <= String.length rest <= 14)%nat.

(** A string of [n] copies of one byte. *)
Fixpoint replicate (n : nat) (c : ascii) : string :=
  match n with
  | O => EmptyString
  | S k => String c (replicate k c)
  end.

Definition draft (phone content : string) : Message :=
  {| ID := 0; PhoneNumber := phone; Content := content; CreatedAt := 0;
     MessageID := None; ProcessedAt := None |}.

Definition created_le (a b : messages.Message) : Prop :=
  messages.CreatedAt a <= messages.CreatedAt b.

(** The transaction a cycle opens in the world [w]. *)
Definition opened (w : Pg.World) : Pg.TxState :=
  {| Pg.work := Pg.rows w; Pg.held := []; Pg.aborted := false |}.

(** The batch that a cycle started in [w] claims. *)
Definition batch (w : Pg.World) (limit : Z) : list messages.Message :=
  Pg.select_unsent w (opened w) limit.

(** No transaction is open and the connection does not fail. *)
Definition calm (w : Pg.World) : Prop :=
  Pg.tx w = None /\
  Pg.begin_fault (Pg.faults w) = None /\
  Pg.query_fault (Pg.faults w) = None /\
  Pg.scan_fault (Pg.faults w) = None /\
  Pg.iter_fault (Pg.faults w) = None /\
  (forall id, Pg.exec_fault (Pg.faults w) id = None) /\
  Pg.commit_fault (Pg.faults w) = None.

(** [id] is the primary key of the table. *)
Definition primary_key (w : Pg.World) : Prop :=
  NoDup (map messages.ID (Pg.rows w)).

(** What became of the claimed row [r], whose delivery was the [n]-th call
    of the webhook: it is found unchanged in [table] with the reason
    logged, or it is found completed with the reference returned. *)
Definition settled (f : Pg.Faults) (n : nat) (r : messages.Message)
    (table : list messages.Message) (tr : list Call) : Prop :=
  match Pg.delivery f n with
  | Err e =>
      In r table /\
      In (LogSendError (messages.ID r) (wrap "failed to send message" e)) tr
  | Ok ref =>
      if Pg.exec_misses f (messages.ID r) then
        In r table /\
        In (LogSendError (messages.ID r)
              (wrap "failed to update message status" (not_found (messages.ID r)))) tr
      else exists tm, In (Pg.set_outcome (Some ref) (Some tm) r) table
  end.

(** The calls of the webhook among the calls made. *)
Definition is_send (c : Call) : bool :=
  match c with CallSend _ _ => true | _ => false end.

(** A connection without failures, on which every delivery succeeds. *)
Definition faultless : Pg.Faults :=
  {| Pg.begin_fault := None; Pg.query_fault := None; Pg.scan_fault := None; Pg.iter_fault := None;
     Pg.exec_fault := fun _ => None; Pg.exec_misses := fun _ => false;
     Pg.commit_fault := None; Pg.rollback_fault := None; Pg.insert_fault := None;
     Pg.list_fault := None; Pg.delivery := fun _ => Ok "ref";
     Pg.clock := fun n => 1000 + Z.of_nat n |}.

Definition world_of (rs : list messages.Message) (f : Pg.Faults) : Pg.World :=
  {| Pg.rows := rs; Pg.nextval := 100; Pg.locked := []; Pg.tx := None;
     Pg.sends := 0; Pg.reads := 0; Pg.faults := f |}.

(** A pending row. *)
Definition queued (id : Z) (createdAt : Time) : messages.Message :=
  {| messages.ID := id; messages.PhoneNumber := "+1234567890";
     messages.Content := "hello"; messages.CreatedAt := createdAt;
     messages.MessageID := None; messages.ProcessedAt := None |}.

(** Three pending rows, stored out of creation order. *)
Definition three : list messages.Message := [queued 3 30; queued 1 10; queued 2 20].

(** The second delivery of a cycle fails. *)
Definition second_fails : Pg.Faults :=
  {| Pg.begin_fault := None; Pg.query_fault := None; Pg.scan_fault := None; Pg.iter_fault := None;
     Pg.exec_fault := fun _ => None; Pg.exec_misses := fun _ => false;
     Pg.commit_fault := None; Pg.rollback_fault := None; Pg.insert_fault := None;
     Pg.list_fault := None;
     Pg.delivery := fun n => if Nat.eqb n 1 then Err "webhook call failed: random failure occurred"
                             else Ok "ref";
     Pg.clock := fun n => 1000 + Z.of_nat n |}.


(** Reading the rows of the claim fails after they were locked. *)
Definition scan_breaks : Pg.Faults :=
  {| Pg.begin_fault := None; Pg.query_fault := None;
     Pg.scan_fault := Some "unexpected EOF"; Pg.iter_fault := None;
     Pg.exec_fault := fun _ => None; Pg.exec_misses := fun _ => false;
     Pg.commit_fault := None; Pg.rollback_fault := None; Pg.insert_fault := None;
     Pg.list_fault := None; Pg.delivery := fun _ => Ok "ref";
     Pg.clock := fun n => 1000 + Z.of_nat n |}.

(** Number of loops of a list that are inside the task. *)
Definition weight (l : scheduler.Loop) : nat := if scheduler.in_task l then 1 else 0.

Definition busy (ls : list scheduler.Loop) : nat :=
  List.length (filter scheduler.in_task ls).

(** The guard is held exactly when one loop is inside the task, and no
    more than one ever is. *)
Definition guarded {Task : Type} (c : scheduler.Client Task) : Prop :=
  busy (scheduler.loops c) = if scheduler.taskRunning c then 1%nat else 0%nat.

(** The wait group counts the live loops, of which there is at most one. *)
Definition single_loop {Task : Type} (c : scheduler.Client Task) : Prop :=
  scheduler.wg c = List.length (scheduler.loops c) /\
  (List.length (scheduler.loops c) <= 1)%nat.

(** ** env/config: configuration from the environment *)

Module config.

Record Config : Type := mkConfig {
  DatabaseURL : string;
  WebhookURL : string;
  WebhookAuthKey : string;
  ServerPort : string;
  SchedulerIntervalMinutes : Z;
  MessageBatchSize : Z
}.

(** The environment of the process, after [godotenv.Load] has added the
    variables of the .env file: [os.Getenv] of an unset variable is the
    empty string. *)
Definition Env : Type := string -> string.

(** Value of a string of decimal digits, most significant first. *)
Fixpoint digits (acc : Z) (s : string) : option Z :=
  match s with
  | EmptyString => Some acc
  | String c t =>
      if Regexp.in_range "0"%char "9"%char c
      then digits (acc * 10 + (Z.of_N (N_of_ascii c) - 48)) t
      else None
  end.

(** [strconv.Atoi]: an optional sign, then one or more decimal digits,
    the value within the range of a 64-bit [int]; [None] is an error. *)
Definition Atoi (s : string) : option Z :=
  match s with
  | EmptyString => None
  | String c t =>
      let negative := Ascii.eqb c "-"%char in
      let body := if (Ascii.eqb c "-"%char || Ascii.eqb c "+"%char)%bool then t else s in
      if is_empty body then None
      else match digits 0 body with
           | None => None
           | Some v =>
               let n := if negative then - v else v in
               if ((- 2 ^ 63 <=? n) && (n <=? 2 ^ 63 - 1))%bool then Some n else None
           end
  end.

Definition getEnv (env : Env) (key defaultValue : string) : string :=
  if is_empty (env key) then defaultValue else env key.

Definition getEnvAsInt (env : Env) (key : string) (defaultValue : Z) : Z :=
  if is_empty (env key) then defaultValue
  else match Atoi (env key) with
       | None => defaultValue
       | Some value => value
       end.

Definition Validate (c : Config) : option error :=
  if is_empty (DatabaseURL c) then Some "DATABASE_URL is required"
  else if is_empty (WebhookURL c) then Some "WEBHOOK_URL is required"
  else if is_empty (WebhookAuthKey c) then Some "WEBHOOK_AUTH_KEY is required"
  else if SchedulerIntervalMinutes c <=? 0 then
    Some "SCHEDULER_INTERVAL_MINUTES must be greater than 0"
  else if MessageBatchSize c <=? 0 then
    Some "MESSAGE_BATCH_SIZE must be greater than 0"
  else None.

Definition Load (env : Env) : result Config :=
  let cfg :=
    {| DatabaseURL := getEnv env "DATABASE_URL" EmptyString;
       WebhookURL := getEnv env "WEBHOOK_URL" EmptyString;
       WebhookAuthKey := getEnv env "WEBHOOK_AUTH_KEY" EmptyString;
       ServerPort := getEnv env "SERVER_PORT" "8080";
       SchedulerIntervalMinutes := getEnvAsInt env "SCHEDULER_INTERVAL_MINUTES" 2;
       MessageBatchSize := getEnvAsInt env "MESSAGE_BATCH_SIZE" 2 |} in
  match Validate cfg with
  | Some e => Err e
  | None => Ok cfg
  end.

End config.

(** ** Further vocabulary *)

(** A row over a cycle: it is as before, or it was pending and is now
    completed with some reference and time. *)
Definition evolves (r r' : messages.Message) : Prop :=
  r' = r \/
  (messages.ProcessedAt r = None /\
   exists ref tm, r' = Pg.set_outcome (Some ref) (Some tm) r).

(** A row over the updates of the rows of the given ids. *)
Definition touched (ids : list Z) (r r' : messages.Message) : Prop :=
  r' = r \/
  (In (messages.ID r) ids /\
   exists ref tm, r' = Pg.set_outcome (Some ref) (Some tm) r).

(** The ids in the table were drawn from the sequence. *)
Definition ids_below (w : Pg.World) : Prop :=
  forall r, In r (Pg.rows w) -> messages.ID r < Pg.nextval w.

(** The store as another process sees it when it opens a transaction of
    its own: the same rows and locks, none of the locks its own. *)
Definition other_tx (w : Pg.World) : Pg.World := Pg.set_tx w (Some (opened w)).


(** The largest number of minutes whose duration fits 64 bits. *)
Definition MaxMinutes : Z := 153722867.

(** An environment that sets the given variables and no other. *)
Fixpoint env_of (vars : list (string * string)) : config.Env :=
  fun key =>
    match vars with
    | [] => EmptyString
    | (k, v) :: rest => if String.eqb key k then v else env_of rest key
    end.

(** The claim of a cycle started in [w] fails. *)
Definition claim_fails (w : Pg.World) (limit : Z) : Prop :=
  Pg.query_fault (Pg.faults w) <> None \/ limit < 0 \/
  Pg.scan_fault (Pg.faults w) <> None \/ Pg.iter_fault (Pg.faults w) <> None.

(** How a cycle started in [w] can end, whatever fails: the transaction
    did not open; the claim failed and was rolled back; the commit failed;
    the commit succeeded. *)
Inductive ending (w : Pg.World) (limit : Z)
  : option error -> Pg.World -> list Call -> Prop :=
| ends_unopened e :
    Pg.begin_fault (Pg.faults w) = Some e ->
    ending w limit (Some (wrap "failed to begin transaction"
                            (wrap "failed to begin transaction" e))) w [CallBegin]
| ends_unclaimed e :
    Pg.begin_fault (Pg.faults w) = None -> claim_fails w limit ->
    ending w limit (Some (wrap "failed to fetch and lock unsent messages" e)) w
      [CallBegin; CallQueryUnsent limit; CallRollback]
| ends_uncommitted e w' tr :
    Pg.begin_fault (Pg.faults w) = None -> ~ claim_fails w limit ->
    Pg.rows w' = Pg.rows w -> Pg.nextval w' = Pg.nextval w ->
    Pg.locked w' = Pg.locked w -> Pg.faults w' = Pg.faults w -> Pg.tx w' = None ->
    Pg.sends w' = (Pg.sends w + List.length (batch w limit))%nat ->
    ~ In CallRollback tr -> ~ In CallCommit tr ->
    filter is_send tr =
      map (fun m => CallSend (messages.PhoneNumber m) (messages.Content m))
        (batch w limit) ->
    ending w limit (Some (wrap "failed to commit transaction" e)) w'
      (CallBegin :: CallQueryUnsent limit :: tr ++ [CallCommit])
| ends_committed w' tr :
    Pg.begin_fault (Pg.faults w) = None -> ~ claim_fails w limit ->
    Pg.commit_fault (Pg.faults w) = None ->
    Forall2 (touched (map messages.ID (batch w limit))) (Pg.rows w) (Pg.rows w') ->
    Pg.nextval w' = Pg.nextval w -> Pg.locked w' = Pg.locked w ->
    Pg.faults w' = Pg.faults w -> Pg.tx w' = None ->
    Pg.sends w' = (Pg.sends w + List.length (batch w limit))%nat ->
    ~ In CallRollback tr -> ~ In CallCommit tr ->
    filter is_send tr =
      map (fun m => CallSend (messages.PhoneNumber m) (messages.Content m))
        (batch w limit) ->
    ending w limit None w' (CallBegin :: CallQueryUnsent limit :: tr ++ [CallCommit]).

(** The commit of a cycle fails. *)
Definition commit_breaks : Pg.Faults :=
  {| Pg.begin_fault := None; Pg.query_fault := None;
     Pg.scan_fault := None; Pg.iter_fault := None;
     Pg.exec_fault := fun _ => None; Pg.exec_misses := fun _ => false;
     Pg.commit_fault := Some "conn closed"; Pg.rollback_fault := None;
     Pg.insert_fault := None; Pg.list_fault := None;
     Pg.delivery := fun _ => Ok "ref";
     Pg.clock := fun n => 1000 + Z.of_nat n |}.

(** * Properties *)

(** ** The matcher decides the language of the expression *)

Module RegexpFacts.
Import Regexp.

Lemma append_empty_r (s : string) : s ++ EmptyString = s.
Proof. induction s as [|c s IH]; simpl; [reflexivity | now rewrite IH]. Qed.

Lemma append_eq_empty (s t : string) : s ++ t = EmptyString -> s = EmptyString /\ t = EmptyString.
Proof. destruct s; simpl; intros H; [now split | discriminate]. Qed.

Lemma length_append (s t : string) :
  String.length (s ++ t) = (String.length s + String.length t)%nat.
Proof. induction s as [|c s IH]; simpl; [reflexivity | now rewrite IH]. Qed.

Lemma nullable_lang (r : re) : nullable r = true <-> lang r EmptyString.
Proof.
  induction r as [| |c|lo hi|a IHa b IHb|a IHa b IHb|a IHa]; simpl; split; intros H.
  - discriminate.
  - inversion H.
  - constructor.
  - reflexivity.
  - discriminate.
  - inversion H.
  - discriminate.
  - inversion H.
  - apply andb_true_iff in H as [Ha Hb].
    change EmptyString with (EmptyString ++ EmptyString). constructor; [now apply IHa | now apply IHb].
  - inversion H as [| | |a' b' s t Hs Ht E1 E2| | | |]; subst.
    apply append_eq_empty in E2 as [-> ->].
    apply andb_true_iff; split; [now apply IHa | now apply IHb].
  - apply orb_true_iff in H as [Ha | Hb];
      [apply lang_alt_l; now apply IHa | apply lang_alt_r; now apply IHb].
  - apply orb_true_iff. inversion H; subst; [left; now apply IHa | right; now apply IHb].
  - apply lang_quest_none.
  - reflexivity.
Qed.

Lemma lang_seq_cons (a b : re) (c : ascii) (s : string) :
  lang (Seq a b) (String c s) <->
  (exists s1 s2, s = s1 ++ s2 /\ lang a (String c s1) /\ lang b s2) \/
  (lang a EmptyString /\ lang b (String c s)).
Proof.
  split.
  - intros H. inversion H as [| | |a' b' u v Hu Hv E1 E2| | | |]; subst.
    destruct u as [|c' u]; simpl in E2.
    + right. subst v. now split.
    + left. injection E2 as -> <-. now exists u, v.
  - intros [(s1 & s2 & -> & H1 & H2) | [H1 H2]].
    + change (String c (s1 ++ s2)) with (String c s1 ++ s2). now constructor.
    + change (String c s) with (EmptyString ++ String c s). now constructor.
Qed.

Lemma deriv_lang (r : re) : forall c s, lang (deriv c r) s <-> lang r (String c s).
Proof.
  induction r; intros c s; simpl.
  - split; intros H; inversion H.
  - split; intros H; inversion H.
  - destruct (Ascii.eqb_spec c a) as [->|Hne]; split; intros H; inversion H; subst.
    + constructor.
    + constructor.
    + congruence.
  - destruct (in_range a a0 c) eqn:E; split; intros H; inversion H; subst.
    + now constructor.
    + constructor.
    + congruence.
  - rewrite lang_seq_cons. destruct (nullable r1) eqn:N.
    + split.
      * intros H. inversion H as [| | | |x y z H1| x y z H1| |]; subst.
        -- inversion H1 as [| | |a' b' u v Hu Hv E1 E2| | | |]; subst.
           left. exists u, v. split; [reflexivity|]. split; [now apply IHr1 | assumption].
        -- right. split; [now apply nullable_lang | now apply IHr2].
      * intros [(s1 & s2 & -> & H1 & H2) | [H1 H2]].
        -- apply lang_alt_l. constructor; [now apply IHr1 | assumption].
        -- apply lang_alt_r. now apply IHr2.
    + split.
      * intros H. inversion H as [| | |a' b' u v Hu Hv E1 E2| | | |]; subst.
        left. exists u, v. split; [reflexivity|]. split; [now apply IHr1 | assumption].
      * intros [(s1 & s2 & -> & H1 & H2) | [H1 H2]].
        -- constructor; [now apply IHr1 | assumption].
        -- apply nullable_lang in H1. congruence.
  - split; intros H; inversion H; subst;
      try (apply lang_alt_l; now apply IHr1); try (apply lang_alt_r; now apply IHr2).
  - split; intros H.
    + apply lang_quest_some. now apply IHr.
    + inversion H; subst. now apply IHr.
Qed.

Theorem MatchString_lang (s : string) : forall r, MatchString r s = true <-> lang r s.
Proof.
  induction s as [|c s IH]; intros r; simpl.
  - apply nullable_lang.
  - rewrite IH. apply deriv_lang.
Qed.

Lemma lang_Eps (s : string) : lang Eps s <-> s = EmptyString.
Proof. split; intros H; [now inversion H | subst; constructor]. Qed.

Lemma lang_Chr (c : ascii) (s : string) : lang (Chr c) s <-> s = String c EmptyString.
Proof. split; intros H; [now inversion H | subst; constructor]. Qed.

Lemma lang_Rng (lo hi : ascii) (s : string) :
  lang (Rng lo hi) s <-> exists c, s = String c EmptyString /\ in_range lo hi c = true.
Proof.
  split; intros H.
  - inversion H; subst. now exists c.
  - destruct H as (c & -> & H). now constructor.
Qed.

Lemma lang_Seq (a b : re) (s : string) :
  lang (Seq a b) s <-> exists u v, s = u ++ v /\ lang a u /\ lang b v.
Proof.
  split; intros H.
  - inversion H; subst. now eexists _, _.
  - destruct H as (u & v & -> & Hu & Hv). now constructor.
Qed.

Lemma lang_Quest (a : re) (s : string) : lang (Quest a) s <-> s = EmptyString \/ lang a s.
Proof.
  split; intros H.
  - inversion H; subst; [now left | now right].
  - destruct H as [-> | H]; [apply lang_quest_none | now apply lang_quest_some].
Qed.

(** Up to [n] optional digits: any string of at most [n] digits. *)
Lemma lang_UpTo_digits (n : nat) : forall s,
  lang (UpTo (Rng "0" "9") n) s <->
  all_digits s = true /\ (String.length s <= n)%nat.
Proof.
  induction n as [|n IH]; intros s; simpl.
  - rewrite lang_Eps. split.
    + intros ->. simpl. split; [reflexivity | lia].
    + intros [_ H]. destruct s; [reflexivity | simpl in H; lia].
  - rewrite lang_Quest, lang_Seq. split.
    + intros [-> | (u & v & -> & Hu & Hv)].
      * simpl. split; [reflexivity | lia].
      * apply lang_Rng in Hu as (c & -> & Hc). apply IH in Hv as [Hd Hl].
        simpl. unfold is_digit. rewrite Hc, Hd. split; [reflexivity | lia].
    + intros [Hd Hl]. destruct s as [|c s]; [now left | right].
      simpl in Hd, Hl. apply andb_true_iff in Hd as [Hc Hd].
      exists (String c EmptyString), s. split; [reflexivity|]. split.
      * apply lang_Rng. now exists c.
      * apply IH. split; [assumption | lia].
Qed.

Theorem phoneRegex_lang (s : string) : lang phoneRegex s <-> phone_number_like s.
Proof.
  unfold phoneRegex, Repeat, phone_number_like. simpl Power. simpl Nat.sub.
  rewrite lang_Seq. split.
  - intros (sign & t & -> & Hsign & Ht).
    apply lang_Quest in Hsign. rewrite lang_Chr in Hsign.
    apply lang_Seq in Ht as (u & v & -> & Hu & Hv).
    apply lang_Rng in Hu as (d & -> & Hd).
    apply lang_Seq in Hv as (x & y & -> & Hx & Hy).
    apply lang_Seq in Hx as (x1 & x2 & -> & Hx1 & Hx2).
    apply lang_Rng in Hx1 as (c & -> & Hc). apply lang_Eps in Hx2 as ->.
    apply lang_UpTo_digits in Hy as [Hy Hl].
    exists sign, d, (String c y). simpl.
    split; [reflexivity|]. split; [tauto|]. split; [assumption|].
    unfold is_digit. rewrite Hc, Hy. split; [reflexivity | lia].
  - intros (sign & d & rest & -> & Hsign & Hd & Hr & Hl).
    destruct rest as [|c y]; [simpl in Hl; lia|].
    simpl in Hr, Hl. apply andb_true_iff in Hr as [Hc Hy].
    exists sign, (String d (String c y)). split; [reflexivity|]. split.
    + apply lang_Quest. rewrite lang_Chr. tauto.
    + apply lang_Seq. exists (String d EmptyString), (String c y).
      split; [reflexivity|]. split; [apply lang_Rng; now exists d|].
      apply lang_Seq. exists (String c EmptyString), y. split; [reflexivity|]. split.
      * apply lang_Seq. exists (String c EmptyString), EmptyString. split; [reflexivity|].
        split; [apply lang_Rng; now exists c | constructor].
      * apply lang_UpTo_digits. split; [assumption | lia].
Qed.

Corollary phoneRegex_matches (s : string) :
  MatchString phoneRegex s = true <-> phone_number_like s.
Proof. rewrite MatchString_lang. apply phoneRegex_lang. Qed.
End RegexpFacts.

(** ** Validation (service/message/domain.go) *)

Lemma is_empty_true (s : string) : is_empty s = true <-> s = EmptyString.
Proof. destruct s; simpl; split; intros H; congruence. Qed.

Lemma not_phone_number_like_empty : ~ phone_number_like EmptyString.
Proof.
  intros (sign & d & rest & E & _). destruct sign; simpl in E; discriminate.
Qed.

Lemma Validate_None_iff (m : Message) :
  Validate m = None <->
  phone_number_like (PhoneNumber m) /\ Content m <> EmptyString /\
  len (Content m) <= MaxContentLength.
Proof.
  unfold Validate.
  destruct (is_empty (PhoneNumber m)) eqn:Ep.
  { apply is_empty_true in Ep. rewrite Ep. split; [discriminate|].
    intros [H _]. now apply not_phone_number_like_empty in H. }
  destruct (Regexp.MatchString phoneRegex (PhoneNumber m)) eqn:Em; simpl.
  2:{ split; [discriminate|]. intros [H _].
      apply RegexpFacts.phoneRegex_matches in H. congruence. }
  apply RegexpFacts.phoneRegex_matches in Em.
  destruct (is_empty (Content m)) eqn:Ec.
  { apply is_empty_true in Ec. split; [discriminate|]. intros (_ & H & _). contradiction. }
  assert (Hc : Content m <> EmptyString).
  { intros H. apply is_empty_true in H. congruence. }
  destruct (len (Content m) >? MaxContentLength) eqn:El.
  - split; [discriminate|]. intros (_ & _ & H). lia.
  - split; [|reflexivity]. intros _. repeat split; [assumption..|lia].
Qed.

(** C1 (as the code has it): [Validate] succeeds exactly when the phone
    number is an optional [+], a digit 1-9 and one to fourteen more digits,
    and the content is non-empty and at most 500 bytes long.  A content of
    500 bytes passes and one of 501 does not; ["+1234567890"] passes,
    ["abc"] does not, and ["1234"] passes like ["+1234567890"] whatever the
    content. *)
Theorem Validate_boundary :
  (forall m, Validate m = None <->
             phone_number_like (PhoneNumber m) /\ Content m <> EmptyString /\
             len (Content m) <= MaxContentLength) /\
  Validate (draft "+1234567890" (replicate 500 "a")) = None /\
  Validate (draft "+1234567890" (replicate 501 "a")) <> None /\
  Validate (draft "abc" "hello") <> None /\
  (forall content, Validate (draft "1234" content) =
                   Validate (draft "+1234567890" content)).
Proof.
  split; [exact Validate_None_iff|].
  split; [vm_compute; reflexivity|].
  split; [vm_compute; discriminate|].
  split; [vm_compute; discriminate|].
  intros content. reflexivity.
Qed.

(** C1, as stated, fails: the pattern makes the [+] optional, so ["1234"]
    with a valid content passes validation. *)
Lemma Validate_accepts_1234 :
  let m := draft "1234" "hello" in
  Content m <> EmptyString /\ len (Content m) <= MaxContentLength /\ Validate m = None.
Proof.
  simpl. split; [discriminate|]. split; [vm_compute; discriminate | reflexivity].
Qed.

(** ** The store *)

Module PgFacts.
Import Pg.

Lemma mem_In (i : Z) (l : list Z) : mem i l = true <-> In i l.
Proof.
  unfold mem. rewrite existsb_exists. split.
  - intros (x & Hx & E). apply Z.eqb_eq in E. now subst.
  - intros H. exists i. split; [assumption | apply Z.eqb_refl].
Qed.

Lemma mem_false (i : Z) (l : list Z) : mem i l = false <-> ~ In i l.
Proof.
  rewrite <- mem_In. destruct (mem i l); split; intros H; congruence.
Qed.

Lemma insert_by_created_perm (r : messages.Message) (l : list messages.Message) :
  Permutation (insert_by_created r l) (r :: l).
Proof.
  induction l as [|x t IH]; simpl; [reflexivity|].
  destruct (messages.CreatedAt r <=? messages.CreatedAt x); [reflexivity|].
  rewrite IH. apply perm_swap.
Qed.

Lemma order_by_created_perm (l : list messages.Message) :
  Permutation (order_by_created l) l.
Proof.
  induction l as [|x t IH]; simpl; [reflexivity|].
  rewrite insert_by_created_perm. now constructor.
Qed.

Lemma insert_by_created_sorted (r : messages.Message) (l : list messages.Message) :
  StronglySorted created_le l -> StronglySorted created_le (insert_by_created r l).
Proof.
  induction 1 as [|x t Hs IH Hall]; simpl.
  - repeat constructor.
  - destruct (Z.leb_spec (messages.CreatedAt r) (messages.CreatedAt x)) as [Hle|Hgt].
    + constructor; [now constructor|]. constructor; [exact Hle|].
      rewrite Forall_forall in *. intros y Hy. specialize (Hall y Hy).
      unfold created_le in *. lia.
    + constructor; [exact IH|].
      rewrite Forall_forall in *. intros y Hy.
      apply (Permutation_in _ (insert_by_created_perm r t)) in Hy.
      destruct Hy as [<- | Hy]; [unfold created_le; lia | now apply Hall].
Qed.

Lemma order_by_created_sorted (l : list messages.Message) :
  StronglySorted created_le (order_by_created l).
Proof.
  induction l as [|x t IH]; simpl; [constructor | now apply insert_by_created_sorted].
Qed.

Lemma sorted_app_le (l1 l2 : list messages.Message) :
  StronglySorted created_le (l1 ++ l2) ->
  forall a b, In a l1 -> In b l2 -> created_le a b.
Proof.
  induction l1 as [|x t IH]; simpl; intros Hs a b Ha Hb; [contradiction|].
  inversion Hs as [|? ? Hs' Hall]; subst. destruct Ha as [<- | Ha].
  - rewrite Forall_forall in Hall. apply Hall, in_or_app. now right.
  - now apply IH.
Qed.

Lemma sorted_firstn (n : nat) (l : list messages.Message) :
  StronglySorted created_le l -> StronglySorted created_le (firstn n l).
Proof.
  revert n. induction l as [|x t IH]; intros [|n] Hs; simpl; try constructor.
  - inversion Hs; subst. now apply IH.
  - inversion Hs as [|? ? _ Hall]; subst. rewrite Forall_forall in *.
    intros y Hy. apply Hall. eapply (In_nth_error) in Hy as [k Hk].
    clear - Hk. revert n k Hk. induction t as [|z t IH]; intros [|n] k Hk;
      simpl in *; try (destruct k; discriminate).
    destruct k as [|k]; simpl in Hk; [injection Hk as ->; now left | right; eauto].
Qed.

Lemma In_firstn {A} (n : nat) (l : list A) (x : A) : In x (firstn n l) -> In x l.
Proof.
  intros H. rewrite <- (firstn_skipn n l). apply in_or_app. now left.
Qed.

(** Facts on tables whose [id] is a key. *)
Lemma key_filter (keep : messages.Message -> bool) (table : list messages.Message) :
  NoDup (map messages.ID table) -> NoDup (map messages.ID (filter keep table)).
Proof.
  induction table as [|x t IH]; simpl; intros H; [constructor|].
  inversion H as [|? ? Hn Hd]; subst. destruct (keep x); simpl; [|now apply IH].
  constructor; [|now apply IH]. intros Hin. apply Hn.
  apply in_map_iff in Hin as (y & E & Hy). apply filter_In in Hy as [Hy _].
  apply in_map_iff. now exists y.
Qed.

Lemma key_firstn (n : nat) (table : list messages.Message) :
  NoDup (map messages.ID table) -> NoDup (map messages.ID (firstn n table)).
Proof.
  intros H. rewrite <- (firstn_skipn n table), map_app in H.
  now apply NoDup_app_remove_r in H.
Qed.

Lemma key_determines (table : list messages.Message) (x y : messages.Message) :
  NoDup (map messages.ID table) -> In x table -> In y table ->
  messages.ID x = messages.ID y -> x = y.
Proof.
  induction table as [|z t IH]; simpl; intros Hd Hx Hy E; [contradiction|].
  inversion Hd as [|? ? Hn Hd']; subst.
  destruct Hx as [<- | Hx], Hy as [<- | Hy]; try reflexivity.
  - exfalso. apply Hn. rewrite E. now apply in_map.
  - exfalso. apply Hn. rewrite <- E. now apply in_map.
  - now apply IH.
Qed.
End PgFacts.

(** ** The dispatch cycle on the store *)

Module CycleFacts.
Import Pg PgFacts.
Local Open Scope go_scope.

Lemma miss_filter (id : Z) (work : list messages.Message) :
  filter (fun r => (messages.ID r =? id) && false) work = [].
Proof. induction work; simpl; [|rewrite andb_false_r]; auto. Qed.

Lemma miss_map (id : Z) (f : messages.Message -> messages.Message)
    (work : list messages.Message) :
  map (fun r => if (messages.ID r =? id) && false then f r else r) work = work.
Proof. induction work; simpl; [|rewrite andb_false_r]; congruence. Qed.

Lemma hit_count_pos (id : Z) (work : list messages.Message) (m : messages.Message) :
  In m work -> messages.ID m = id ->
  (Z.of_nat (List.length (filter (fun r => (messages.ID r =? id) && true) work)) =? 0)
  = false.
Proof.
  intros Hin E. apply Z.eqb_neq.
  assert (Hf : In m (filter (fun r => (messages.ID r =? id) && true) work)).
  { apply filter_In. split; [assumption|]. rewrite E, Z.eqb_refl. reflexivity. }
  destruct (filter _ work); [contradiction | simpl; lia].
Qed.

Lemma item_pg (m : messages.Message) (w : World) (t : TxState) :
  tx w = Some t -> aborted t = false ->
  exec_fault (faults w) (messages.ID m) = None ->
  In m (work t) ->
  exists w1 tr1 work1,
    loopBody ops (toDomain m) w = (tt, w1, tr1) /\
    rows w1 = rows w /\ nextval w1 = nextval w /\ locked w1 = locked w /\
    faults w1 = faults w /\ sends w1 = S (sends w) /\
    tx w1 = Some {| work := work1; held := held t; aborted := false |} /\
    map messages.ID work1 = map messages.ID (work t) /\
    (forall x, In x (work t) -> messages.ID x <> messages.ID m -> In x work1) /\
    settled (faults w) (sends w) m work1 tr1 /\
    ~ In CallRollback tr1 /\ ~ In CallCommit tr1 /\
    filter is_send tr1 = [CallSend (messages.PhoneNumber m) (messages.Content m)].
Proof.
  intros Htx Hab Hex Hin.
  destruct w as [rs nv lk tx0 sn rd f]; destruct t as [wk hd ab]; simpl in *; subst.
  unfold loopBody, sendMessageWithTx, SendMessage, UpdateWithTx, bind, call, quiet, ret,
    settled; simpl.
  destruct (delivery f sn) as [ref|e] eqn:Ed; simpl.
  - unfold exec_update; simpl. rewrite Hex.
    destruct (exec_misses f (messages.ID m)) eqn:Em; simpl.
    + rewrite miss_filter. simpl. rewrite miss_map.
      do 3 eexists. split; [reflexivity|]. simpl.
      repeat split; auto; intuition discriminate.
    + rewrite (hit_count_pos _ _ m Hin eq_refl). simpl.
      do 3 eexists. split; [reflexivity|]. simpl.
      repeat split; auto; try solve [intuition discriminate].
      * rewrite map_map. apply map_ext. intros r.
        destruct (messages.ID r =? messages.ID m); reflexivity.
      * intros x Hx Hne. apply in_map_iff. exists x. split; [|assumption].
        apply Z.eqb_neq in Hne. now rewrite Hne.
      * eexists. apply in_map_iff. exists m. split; [|assumption].
        rewrite Z.eqb_refl. reflexivity.
  - do 3 eexists. split; [reflexivity|]. simpl.
    repeat split; auto; intuition discriminate.
Qed.

Lemma settled_mono (f : Faults) (n : nat) (r : messages.Message)
    (t1 t2 : list messages.Message) (tr1 tr2 : list Call) :
  settled f n r t1 tr1 ->
  (forall x, In x t1 -> messages.ID x = messages.ID r -> In x t2) ->
  (forall c, In c tr1 -> In c tr2) ->
  settled f n r t2 tr2.
Proof.
  unfold settled. intros H Ht Htr.
  destruct (delivery f n) as [ref|e].
  - destruct (exec_misses f (messages.ID r)).
    + destruct H as [H1 H2]. split; [now apply Ht | now apply Htr].
    + destruct H as [tm H]. exists tm. now apply Ht.
  - destruct H as [H1 H2]. split; [now apply Ht | now apply Htr].
Qed.

(** The loop over a batch of distinct rows of the table. *)
Lemma sendEach_pg (msgs : list messages.Message) : forall (w : World) (t : TxState),
  tx w = Some t -> aborted t = false ->
  (forall id, exec_fault (faults w) id = None) ->
  NoDup (map messages.ID msgs) -> incl msgs (work t) ->
  exists w' tr work',
    sendEach ops (ToDomainSlice msgs) w = (tt, w', tr) /\
    rows w' = rows w /\ nextval w' = nextval w /\ locked w' = locked w /\
    faults w' = faults w /\ sends w' = (sends w + List.length msgs)%nat /\
    tx w' = Some {| work := work'; held := held t; aborted := false |} /\
    map messages.ID work' = map messages.ID (work t) /\
    (forall x, In x (work t) -> ~ In (messages.ID x) (map messages.ID msgs) ->
               In x work') /\
    (forall k r, nth_error msgs k = Some r ->
                 settled (faults w) (sends w + k) r work' tr) /\
    ~ In CallRollback tr /\ ~ In CallCommit tr /\
    filter is_send tr =
      map (fun m => CallSend (messages.PhoneNumber m) (messages.Content m)) msgs.
Proof.
  induction msgs as [|m rest IH]; intros w t Htx Hab Hex Hnd Hincl.
  - exists w, [], (work t). simpl. unfold ret.
    repeat split; auto.
    + rewrite Htx. f_equal. clear - Hab. destruct t as [wk hd ab]. simpl in *. now subst.
    + intros k r Hk. destruct k; discriminate.
  - destruct (item_pg m w t Htx Hab (Hex _) (Hincl m (or_introl eq_refl)))
      as (w1 & tr1 & work1 & E1 & Hr1 & Hn1 & Hl1 & Hf1 & Hs1 & Htx1 & Hid1 & Hk1
          & Hset1 & Hnr1 & Hnc1 & Hsend1).
    simpl in Hnd. inversion Hnd as [|? ? Hnotin Hnd']; subst.
    destruct (IH w1 {| work := work1; held := held t; aborted := false |})
      as (w2 & tr2 & work2 & E2 & Hr2 & Hn2 & Hl2 & Hf2 & Hs2 & Htx2 & Hid2 & Hk2
          & Hset2 & Hnr2 & Hnc2 & Hsend2); simpl; auto.
    { intros id. rewrite Hf1. apply Hex. }
    { intros r Hr. apply Hk1; [apply Hincl; now right|].
      intros E. apply Hnotin. rewrite <- E. now apply in_map. }
    simpl in Hk2, Hid2.
    exists w2, (tr1 ++ tr2)%list, work2.
    split.
    { simpl. unfold bind at 1. rewrite E1. rewrite E2. reflexivity. }
    repeat split; try congruence.
    + rewrite Hs2, Hs1. simpl. lia.
    + simpl in Htx2. exact Htx2.
    + intros x Hx Hnot. simpl in Hnot. apply Hk2.
      * apply Hk1; [assumption|]. intros E. apply Hnot. left. now rewrite E.
      * intros Hin. apply Hnot. now right.
    + intros k r Hk. destruct k as [|k]; simpl in Hk.
      * injection Hk as <-. rewrite Nat.add_0_r.
        apply (settled_mono _ _ _ work1 work2 tr1 (tr1 ++ tr2)); [assumption| |].
        -- intros x Hx E. apply Hk2; [assumption|]. now rewrite E.
        -- intros c Hc. apply in_or_app. now left.
      * specialize (Hset2 k r Hk). rewrite Hf1, Hs1 in Hset2.
        replace (sends w + S k)%nat with (S (sends w) + k)%nat by lia.
        apply (settled_mono _ _ _ work2 work2 tr2 (tr1 ++ tr2)); [assumption|auto|].
        intros c Hc. apply in_or_app. now right.
    + intros Hin. apply in_app_or in Hin as [Hin|Hin]; contradiction.
    + intros Hin. apply in_app_or in Hin as [Hin|Hin]; contradiction.
    + rewrite filter_app, Hsend1, Hsend2. reflexivity.
Qed.
End CycleFacts.

Module ClaimFacts.
Import Pg PgFacts CycleFacts.

Lemma filter_all {A} (p : A -> bool) (l : list A) :
  (forall x, In x l -> p x = true) -> filter p l = l.
Proof.
  induction l as [|x t IH]; simpl; intros H; [reflexivity|].
  rewrite (H x (or_introl eq_refl)), IH; auto.
Qed.

Lemma filter_nothing {A} (p : A -> bool) (l : list A) :
  (forall x, In x l -> p x = false) -> filter p l = [].
Proof.
  induction l as [|x t IH]; simpl; intros H; [reflexivity|].
  rewrite (H x (or_introl eq_refl)), IH; auto.
Qed.

Lemma select_unsent_In (w : World) (t : TxState) (limit : Z) (r : messages.Message) :
  In r (select_unsent w t limit) ->
  In r (work t) /\ messages.ProcessedAt r = None /\ free w t r = true.
Proof.
  unfold select_unsent. intros H. apply In_firstn in H.
  apply (Permutation_in _ (order_by_created_perm _)) in H.
  apply filter_In in H as [Hin Hp]. apply andb_true_iff in Hp as [Hp Hf].
  repeat split; try assumption.
  unfold pending in Hp. destruct (messages.ProcessedAt r); [discriminate | reflexivity].
Qed.

Lemma select_unsent_NoDup (w : World) (t : TxState) (limit : Z) :
  NoDup (map messages.ID (work t)) ->
  NoDup (map messages.ID (select_unsent w t limit)).
Proof.
  intros H. unfold select_unsent. apply key_firstn.
  eapply Permutation_NoDup.
  - apply Permutation_map, Permutation_sym, order_by_created_perm.
  - now apply key_filter.
Qed.

Lemma select_unsent_sorted (w : World) (t : TxState) (limit : Z) :
  StronglySorted created_le (select_unsent w t limit).
Proof. apply sorted_firstn, order_by_created_sorted. Qed.

Lemma select_unsent_length (w : World) (t : TxState) (limit : Z) :
  0 <= limit -> Z.of_nat (List.length (select_unsent w t limit)) <= limit.
Proof.
  intros H. unfold select_unsent.
  pose proof (firstn_le_length (Z.to_nat limit)
    (order_by_created (filter (fun r => pending r && free w t r) (work t)))). lia.
Qed.

(** A row left out of the selection although it qualifies is not older
    than any selected row, and the selection is then full. *)
Lemma select_unsent_oldest (w : World) (t : TxState) (limit : Z)
    (r x : messages.Message) :
  In r (select_unsent w t limit) ->
  In x (work t) -> pending x = true -> free w t x = true ->
  ~ In x (select_unsent w t limit) ->
  created_le r x /\ List.length (select_unsent w t limit) = Z.to_nat limit.
Proof.
  unfold select_unsent.
  set (all := order_by_created (filter (fun r => pending r && free w t r) (work t))).
  intros Hr Hx Hp Hf Hnot.
  assert (Hall : In x all).
  { apply (Permutation_in _ (Permutation_sym (order_by_created_perm _))).
    apply filter_In. split; [assumption|]. now rewrite Hp, Hf. }
  rewrite <- (firstn_skipn (Z.to_nat limit) all) in Hall.
  apply in_app_or in Hall as [Hall | Hall]; [contradiction|].
  split.
  - apply (sorted_app_le (firstn (Z.to_nat limit) all) (skipn (Z.to_nat limit) all));
      try assumption.
    rewrite firstn_skipn. apply order_by_created_sorted.
  - apply firstn_length_le.
    destruct (Nat.le_gt_cases (Z.to_nat limit) (List.length all)) as [H|H]; [assumption|].
    rewrite skipn_all2 in Hall by lia. contradiction.
Qed.

Lemma release_own (lk ids : list Z) :
  (forall i, In i ids -> ~ In i lk) ->
  filter (fun i => negb (mem i ids)) (lk ++ ids) = lk.
Proof.
  intros H. rewrite filter_app, (filter_nothing _ ids), app_nil_r.
  - apply filter_all. intros i Hi. apply negb_true_iff, mem_false.
    intros Hin. now apply (H i).
  - intros i Hi. apply negb_false_iff, mem_In. assumption.
Qed.

Lemma batch_unlocked (w : World) (limit : Z) (i : Z) :
  In i (map messages.ID (batch w limit)) -> ~ In i (locked w).
Proof.
  intros Hin. apply in_map_iff in Hin as (r & <- & Hr).
  apply select_unsent_In in Hr as (_ & _ & Hf).
  unfold free, opened in Hf. simpl in Hf. rewrite orb_false_r in Hf.
  apply negb_true_iff, mem_false in Hf. assumption.
Qed.
End ClaimFacts.

Module RunFacts.
Import Pg PgFacts CycleFacts ClaimFacts.

Lemma filter_true {A} (l : list A) : filter (fun _ => true) l = l.
Proof. induction l; simpl; congruence. Qed.

(** The world after a successful claim in a cycle started in [w]. *)
Lemma claim_pg (w : World) (limit : Z) :
  calm w -> 0 <= limit ->
  exists w1 w2,
    BeginTx ops w = (None, w1, [CallBegin]) /\
    ListAndLockUnsent ops limit w1 =
      (Ok (batch w limit), w2, [CallQueryUnsent limit]) /\
    rows w2 = rows w /\ nextval w2 = nextval w /\ faults w2 = faults w /\
    sends w2 = sends w /\ reads w2 = reads w /\
    locked w2 = (locked w ++ map messages.ID (batch w limit))%list /\
    tx w2 = Some {| work := rows w; held := map messages.ID (batch w limit);
                    aborted := false |}.
Proof.
  intros (Htx & Hb & Hq & Hs & Hi & _ & _) Hl.
  destruct w as [rs nv lk tx0 sn rd f]. simpl in *. subst tx0.
  unfold BeginTx, ListAndLockUnsent, bind, call, ret. simpl.
  unfold begin, query_unsent. simpl. rewrite Hb. simpl.
  do 2 eexists. split; [reflexivity|]. simpl.
  rewrite Hq, Hs, Hi. destruct (Z.ltb_spec limit 0) as [Hneg|_]; [lia|]. simpl.
  rewrite filter_true.
  split; [reflexivity|]. simpl. repeat split; reflexivity.
Qed.

(** A cycle whose claim is not empty, on a connection that does not
    fail: every claimed row is settled and the scope is committed. *)
Lemma cycle_pg (w : World) (limit : Z) :
  calm w -> primary_key w -> 0 <= limit -> batch w limit <> [] ->
  exists w' tr,
    ProcessUnsentMessages ops limit w =
      (None, w', CallBegin :: CallQueryUnsent limit :: tr ++ [CallCommit]) /\
    tx w' = None /\ locked w' = locked w /\ nextval w' = nextval w /\
    faults w' = faults w /\
    sends w' = (sends w + List.length (batch w limit))%nat /\
    map messages.ID (rows w') = map messages.ID (rows w) /\
    (forall x, In x (rows w) -> ~ In x (batch w limit) -> In x (rows w')) /\
    (forall k r, nth_error (batch w limit) k = Some r ->
                 settled (faults w) (sends w + k) r (rows w') tr) /\
    ~ In CallRollback tr /\ ~ In CallCommit tr /\
    filter is_send tr =
      map (fun m => CallSend (messages.PhoneNumber m) (messages.Content m))
        (batch w limit).
Proof.
  intros Hcalm Hpk Hl Hne.
  destruct (claim_pg w limit Hcalm Hl)
    as (w1 & w2 & E1 & E2 & Hr2 & Hn2 & Hf2 & Hs2 & Hd2 & Hk2 & Htx2).
  destruct Hcalm as (_ & _ & _ & _ & _ & Hex & Hc).
  destruct (sendEach_pg (batch w limit) w2 _ Htx2 eq_refl)
    as (w3 & tr & work3 & E3 & Hr3 & Hn3 & Hk3 & Hf3 & Hs3 & Htx3 & Hid3 & Hkeep
        & Hset & Hnr & Hnc & Hsend).
  { intros id. rewrite Hf2. apply Hex. }
  { apply select_unsent_NoDup. exact Hpk. }
  { intros r Hr. apply select_unsent_In in Hr. tauto. }
  simpl in Hid3, Hkeep, Htx3.
  assert (Hcommit : commit w3 =
    (None, {| rows := work3; nextval := nextval w; locked := locked w; tx := None;
              sends := sends w3; reads := reads w3; faults := faults w |})).
  { unfold commit. rewrite Htx3. simpl. rewrite Hf3, Hf2, Hc.
    unfold release. simpl. rewrite Hk3, Hk2, release_own, Hn3, Hn2; [reflexivity|].
    intros i Hi. now apply batch_unlocked in Hi. }
  unfold ProcessUnsentMessages, bind. rewrite E1, E2.
  destruct (batch w limit) as [|r0 rest] eqn:Eb; [congruence|].
  rewrite E3. unfold call. simpl tx_commit. rewrite Hcommit. simpl.
  do 2 eexists. split; [reflexivity|]. simpl.
  repeat split; try assumption.
  - rewrite Hs3, Hs2. reflexivity.
  - intros x Hx Hnot. apply Hkeep; [assumption|].
    intros Hin. apply Hnot. apply in_map_iff in Hin as (y & E & Hy).
    assert (x = y) as ->; [|assumption].
    symmetry. apply (key_determines (rows w)); try assumption.
    rewrite <- Eb in Hy. apply select_unsent_In in Hy. tauto.
  - intros k r Hk. specialize (Hset k r Hk). now rewrite Hf2, Hs2 in Hset.
Qed.
End RunFacts.

(** ** Mappers (service/message/mapper.go) *)

(** C10: [ToDomain] and [ToPostgres] are inverse to each other, field for
    field, on nil and on non-nil arguments alike, and send nil to nil. *)
Theorem mappers_inverse :
  (forall m : option Message, ToDomain (ToPostgres m) = m) /\
  (forall p : option messages.Message, ToPostgres (ToDomain p) = p) /\
  ToDomain None = None /\ ToPostgres None = None /\
  (forall m : Message,
     exists p, ToPostgres (Some m) = Some p /\
       messages.ID p = ID m /\ messages.PhoneNumber p = PhoneNumber m /\
       messages.Content p = Content m /\ messages.CreatedAt p = CreatedAt m /\
       messages.MessageID p = MessageID m /\ messages.ProcessedAt p = ProcessedAt m).
Proof.
  split; [intros [[i p c t mid pat]|]; reflexivity|].
  split; [intros [[i p c t mid pat]|]; reflexivity|].
  split; [reflexivity|]. split; [reflexivity|].
  intros m. exists (toPostgres m). repeat split; reflexivity.
Qed.

(** ** Creation (service/message/service.go) *)

(** C9: when the phone number or the content is invalid, [CreateMessage]
    returns a validation error having made no call to the store: the only
    effect is the reading of the clock, and on the PostgreSQL store the
    table and its sequence are as before. *)
Theorem CreateMessage_invalid_no_write {W : Type} (ops : Ops W)
    (phoneNumber content : string) (w : W) :
  ~ (phone_number_like phoneNumber /\ content <> EmptyString /\
     len content <= MaxContentLength) ->
  exists e,
    CreateMessage ops phoneNumber content w =
      (Err (wrap "validation failed" e), snd (time_now ops w), []) /\
    (forall pw : Pg.World,
       Pg.rows (snd (Pg.now pw)) = Pg.rows pw /\
       Pg.nextval (snd (Pg.now pw)) = Pg.nextval pw).
Proof.
  intros Hbad. unfold CreateMessage, bind, quiet.
  destruct (time_now ops w) as [now w1] eqn:En. simpl.
  destruct (Validate _) as [e|] eqn:Ev.
  - exists e. split; [reflexivity|]. intros pw. split; reflexivity.
  - exfalso. apply Hbad. apply Validate_None_iff in Ev. exact Ev.
Qed.

Lemma CreateMessage_invalid_no_write_witness :
  exists e,
    CreateMessage Pg.ops "abc" "hello" (world_of [] faultless) =
      (Err (wrap "validation failed" e), snd (Pg.now (world_of [] faultless)), []) /\
    (forall pw : Pg.World,
       Pg.rows (snd (Pg.now pw)) = Pg.rows pw /\
       Pg.nextval (snd (Pg.now pw)) = Pg.nextval pw).
Proof.
  apply (CreateMessage_invalid_no_write Pg.ops "abc" "hello" (world_of [] faultless)).
  intros [H _]. apply RegexpFacts.phoneRegex_matches in H. vm_compute in H. discriminate.
Defined.

(** ** The dispatch cycle (service/message/service.go) *)

(** C7: when the transaction opens, the claim returns no row and the
    commit succeeds, the cycle returns nil; its calls are the begin, the
    claim and the commit, so nothing is delivered and no outcome recorded. *)
Theorem empty_claim_commits {W : Type} (ops : Ops W) (batchSize : Z)
    (w w1 w2 w3 : W) :
  pool_begin ops w = (None, w1) ->
  tx_query_unsent ops batchSize w1 = (Fetched [], w2) ->
  tx_commit ops w2 = (None, w3) ->
  ProcessUnsentMessages ops batchSize w =
    (None, w3, [CallBegin; CallQueryUnsent batchSize; CallCommit]).
Proof.
  intros Hb Hq Hc.
  unfold ProcessUnsentMessages, BeginTx, ListAndLockUnsent, bind, call, ret.
  rewrite Hb. simpl. rewrite Hq. simpl. rewrite Hc. reflexivity.
Qed.

Lemma empty_claim_commits_witness :
  ProcessUnsentMessages Pg.ops 2 (world_of [] faultless) =
    (None, world_of [] faultless, [CallBegin; CallQueryUnsent 2; CallCommit]).
Proof.
  apply (empty_claim_commits Pg.ops 2 (world_of [] faultless)
           (Pg.set_tx (world_of [] faultless) (Some (opened (world_of [] faultless))))
           (Pg.set_tx (world_of [] faultless) (Some (opened (world_of [] faultless)))));
    reflexivity.
Defined.


Lemma calm_world_of (rs : list messages.Message) (f : Pg.Faults) :
  Pg.begin_fault f = None -> Pg.query_fault f = None -> Pg.scan_fault f = None ->
  Pg.iter_fault f = None ->
  (forall id, Pg.exec_fault f id = None) -> Pg.commit_fault f = None ->
  calm (world_of rs f).
Proof. intros. unfold calm, world_of. simpl. tauto. Qed.

Lemma primary_key_three (f : Pg.Faults) : primary_key (world_of three f).
Proof.
  unfold primary_key. simpl. repeat constructor; simpl; intuition discriminate.
Qed.


(** The batch of three of the specification: rows created at 10, 20 and
    30, the second delivery fails.  The cycle returns nil; the first and
    the third row are completed, the second is untouched. *)
Example batch_of_three_second_fails :
  let '(err, w', tr) := ProcessUnsentMessages Pg.ops 3 (world_of three second_fails) in
  err = None /\
  Pg.rows w' =
    [Pg.set_outcome (Some "ref") (Some 1001) (queued 3 30);
     Pg.set_outcome (Some "ref") (Some 1000) (queued 1 10);
     queued 2 20] /\
  Pg.locked w' = [] /\ Pg.tx w' = None /\
  tr = [CallBegin; CallQueryUnsent 3;
        CallSend "+1234567890" "hello"; CallExecUpdate 1 (Some "ref") (Some 1000);
        CallSend "+1234567890" "hello";
        LogSendError 2 "failed to send message: webhook call failed: random failure occurred";
        CallSend "+1234567890" "hello"; CallExecUpdate 3 (Some "ref") (Some 1001);
        CallCommit].
Proof. vm_compute. repeat split; reflexivity. Qed.




(** ** Abort of a cycle *)

Lemma release_nothing (w : Pg.World) (t : Pg.TxState) :
  Pg.held t = [] -> Pg.release w t = Pg.locked w.
Proof.
  intros H. unfold Pg.release. rewrite H. simpl. apply RunFacts.filter_true.
Qed.

(** C5: a cycle that returns an error after it called the claim and
    without having called the commit has called the rollback last, and
    leaves the store as it found it: no outcome is in the table, the locks
    taken by the claim are released, and a later claim selects what it
    would have selected before. *)
Theorem abort_rolls_back (w w' : Pg.World) (limit : Z) (e : error) (tr : list Call) :
  Pg.tx w = None ->
  ProcessUnsentMessages Pg.ops limit w = (Some e, w', tr) ->
  In (CallQueryUnsent limit) tr -> ~ In CallCommit tr ->
  tr = [CallBegin; CallQueryUnsent limit; CallRollback] /\
  w' = w /\
  (forall n, batch w' n = batch w n).
Proof.
  intros Htx Hrun Hq Hnc.
  assert (Hgoal : tr = [CallBegin; CallQueryUnsent limit; CallRollback] /\ w' = w);
    [|destruct Hgoal as [-> ->]; repeat split; reflexivity].
  destruct w as [rs nv lk tx0 sn rd f]. simpl in Htx. subst tx0.
  unfold ProcessUnsentMessages, BeginTx, ListAndLockUnsent, deferredRollback,
    bind, call, ret in Hrun.
  simpl in Hrun. unfold Pg.begin in Hrun. simpl in Hrun.
  destruct (Pg.begin_fault f) as [eb|] eqn:Eb; simpl in Hrun.
  { injection Hrun as _ _ <-. simpl in Hq. intuition discriminate. }
  unfold Pg.query_unsent in Hrun. simpl in Hrun.
  destruct (Pg.query_fault f) as [eq|] eqn:Eq; simpl in Hrun.
  { injection Hrun as _ <- <-. split; [reflexivity|].
    rewrite release_nothing; reflexivity. }
  destruct (limit <? 0) eqn:El; simpl in Hrun.
  { injection Hrun as _ <- <-. split; [reflexivity|].
    rewrite release_nothing; reflexivity. }
  rewrite RunFacts.filter_true in Hrun.
  assert (Hrel : forall i,
            In i (map messages.ID
                    (batch {| Pg.rows := rs; Pg.nextval := nv; Pg.locked := lk;
                              Pg.tx := None; Pg.sends := sn; Pg.reads := rd;
                              Pg.faults := f |} limit)) -> ~ In i lk).
  { intros i Hi. now apply ClaimFacts.batch_unlocked in Hi. }
  destruct (Pg.scan_fault f) as [es|] eqn:Es; simpl in Hrun.
  { injection Hrun as _ <- <-. split; [reflexivity|].
    unfold Pg.release. simpl. rewrite ClaimFacts.release_own; [reflexivity|exact Hrel]. }
  destruct (Pg.iter_fault f) as [ei|] eqn:Ei; simpl in Hrun.
  { injection Hrun as _ <- <-. split; [reflexivity|].
    unfold Pg.release. simpl. rewrite ClaimFacts.release_own; [reflexivity|exact Hrel]. }
  exfalso. apply Hnc.
  match type of Hrun with context [match ?sel with [] => _ | _ :: _ => _ end] =>
    destruct sel as [|r0 rest] end.
  - match type of Hrun with context [Pg.commit ?x] =>
      destruct (Pg.commit x) as [[ec|] w4] end;
      injection Hrun as _ _ <-; simpl; tauto.
  - match type of Hrun with context [sendEach ?o ?l ?x] =>
      destruct (sendEach o l x) as [[u w3] tr3] end.
    match type of Hrun with context [Pg.commit ?x] =>
      destruct (Pg.commit x) as [[ec|] w4] end;
      injection Hrun as _ _ <-; simpl; right; right; apply in_or_app; right;
      simpl; tauto.
Qed.

Lemma abort_rolls_back_witness :
  ProcessUnsentMessages Pg.ops 2 (world_of three scan_breaks) =
    (Some "failed to fetch and lock unsent messages: failed to scan message: unexpected EOF",
     world_of three scan_breaks, [CallBegin; CallQueryUnsent 2; CallRollback]) /\
  (forall n, batch (world_of three scan_breaks) n = batch (world_of three scan_breaks) n).
Proof.
  split; [vm_compute; reflexivity|].
  apply (abort_rolls_back (world_of three scan_breaks) (world_of three scan_breaks) 2
           "failed to fetch and lock unsent messages: failed to scan message: unexpected EOF"
           [CallBegin; CallQueryUnsent 2; CallRollback]).
  - reflexivity.
  - vm_compute. reflexivity.
  - simpl. tauto.
  - simpl. intros H. intuition discriminate.
Defined.

(** ** The claim (env/postgres/messages, [ListAndLockUnsent]) *)

(** Three rows of strictly increasing creation time have one sorted
    arrangement. *)
Lemma sorted_three (l : list messages.Message) (r1 r2 r3 : messages.Message) :
  StronglySorted created_le l -> Permutation l [r1; r2; r3] ->
  messages.CreatedAt r1 < messages.CreatedAt r2 < messages.CreatedAt r3 ->
  l = [r1; r2; r3].
Proof.
  intros Hs Hp Ht.
  pose proof (Permutation_length Hp) as Hlen.
  destruct l as [|a [|b [|c [|d l]]]]; try discriminate.
  assert (Ha : In a [r1; r2; r3]) by (apply (Permutation_in _ Hp); simpl; tauto).
  assert (Hb : In b [r1; r2; r3]) by (apply (Permutation_in _ Hp); simpl; tauto).
  assert (Hc : In c [r1; r2; r3]) by (apply (Permutation_in _ Hp); simpl; tauto).
  apply Permutation_sym in Hp.
  assert (H1 : In r1 [a; b; c]) by (apply (Permutation_in _ Hp); simpl; tauto).
  assert (H2 : In r2 [a; b; c]) by (apply (Permutation_in _ Hp); simpl; tauto).
  assert (H3 : In r3 [a; b; c]) by (apply (Permutation_in _ Hp); simpl; tauto).
  inversion Hs as [|? ? Hs1 Hall1]; subst.
  inversion Hs1 as [|? ? Hs2 Hall2]; subst.
  inversion Hall1 as [|? ? Hab Hall1']; subst. inversion Hall1' as [|? ? Hac _]; subst.
  inversion Hall2 as [|? ? Hbc _]; subst.
  unfold created_le in *. simpl in *.
  destruct Ha as [<-|[<-|[<-|[]]]]; destruct Hb as [<-|[<-|[<-|[]]]];
    destruct Hc as [<-|[<-|[<-|[]]]]; try reflexivity; try (exfalso; lia);
    exfalso;
    repeat match goal with
           | H : _ \/ _ |- _ => destruct H
           | H : False |- _ => destruct H
           | H : ?x = ?y |- _ => first [subst x | subst y]
           end; lia.
Qed.

(** C8: inside a transaction and on a connection that does not fail,
    [ListAndLockUnsent] returns at most [limit] rows, ordered by creation
    time, each of them pending and not locked by another transaction; a
    qualifying row that is left out is not older than any row returned,
    and then the limit is reached.  With three such rows created at
    t1 < t2 < t3 and a limit of 2 the result is the rows of t1 and t2, in
    that order. *)
Theorem claim_oldest_first (w : Pg.World) (t : Pg.TxState) (limit : Z) :
  Pg.tx w = Some t -> Pg.aborted t = false ->
  Pg.query_fault (Pg.faults w) = None -> Pg.scan_fault (Pg.faults w) = None ->
  Pg.iter_fault (Pg.faults w) = None -> 0 <= limit ->
  exists w' sel,
    ListAndLockUnsent Pg.ops limit w = (Ok sel, w', [CallQueryUnsent limit]) /\
    Z.of_nat (List.length sel) <= limit /\
    StronglySorted created_le sel /\
    (forall r, In r sel ->
       In r (Pg.work t) /\ messages.ProcessedAt r = None /\ Pg.free w t r = true) /\
    (forall r x, In r sel -> In x (Pg.work t) -> Pg.pending x = true ->
       Pg.free w t x = true -> ~ In x sel ->
       created_le r x /\ List.length sel = Z.to_nat limit) /\
    (forall r1 r2 r3,
       Permutation (Pg.work t) [r1; r2; r3] ->
       (forall x, In x (Pg.work t) -> Pg.pending x = true /\ Pg.free w t x = true) ->
       messages.CreatedAt r1 < messages.CreatedAt r2 < messages.CreatedAt r3 ->
       limit = 2 -> sel = [r1; r2]).
Proof.
  intros Htx Hab Hq Hs Hi Hl.
  exists (snd (Pg.query_unsent limit w)), (Pg.select_unsent w t limit).
  split.
  { unfold ListAndLockUnsent, bind, call, ret. simpl.
    unfold Pg.query_unsent. rewrite Htx, Hab, Hq, Hs, Hi.
    destruct (Z.ltb_spec limit 0) as [Hneg|_]; [lia|]. reflexivity. }
  split; [now apply ClaimFacts.select_unsent_length|].
  split; [apply ClaimFacts.select_unsent_sorted|].
  split; [intros r; apply ClaimFacts.select_unsent_In|].
  split; [intros r x; apply ClaimFacts.select_unsent_oldest|].
  intros r1 r2 r3 Hp Hall Ht ->. unfold Pg.select_unsent.
  rewrite ClaimFacts.filter_all.
  - rewrite (sorted_three (Pg.order_by_created (Pg.work t)) r1 r2 r3); try assumption.
    + reflexivity.
    + apply PgFacts.order_by_created_sorted.
    + rewrite PgFacts.order_by_created_perm. exact Hp.
  - intros x Hx. destruct (Hall x Hx) as [-> ->]. reflexivity.
Qed.

Lemma claim_oldest_first_witness :
  exists w' sel,
    ListAndLockUnsent Pg.ops 2
      (Pg.set_tx (world_of three faultless) (Some (opened (world_of three faultless)))) =
      (Ok sel, w', [CallQueryUnsent 2]) /\
    sel = [queued 1 10; queued 2 20].
Proof.
  destruct (claim_oldest_first
              (Pg.set_tx (world_of three faultless) (Some (opened (world_of three faultless))))
              (opened (world_of three faultless)) 2)
    as (w' & sel & E & _ & _ & _ & _ & H); try reflexivity; [lia|].
  exists w', sel. split; [exact E|].
  apply (H (queued 1 10) (queued 2 20) (queued 3 30)).
  - simpl. unfold three. apply Permutation_cons_append.
  - intros x Hx. simpl in Hx. destruct Hx as [<-|[<-|[<-|[]]]]; split; reflexivity.
  - simpl. lia.
  - reflexivity.
Defined.

(** ** The recurring trigger (pkg/scheduler) *)

Module SchedulerFacts.
Import scheduler.

Lemma busy_cons (l : Loop) (ls : list Loop) :
  busy (l :: ls) = (weight l + busy ls)%nat.
Proof. unfold busy, weight. simpl. destruct (in_task l); reflexivity. Qed.

Lemma busy_app (l1 l2 : list Loop) : busy (l1 ++ l2) = (busy l1 + busy l2)%nat.
Proof. unfold busy. now rewrite filter_app, length_app. Qed.

Lemma busy_update (ls : list Loop) : forall i l l',
  nth_error ls i = Some l ->
  (busy (update i l' ls) + weight l = busy ls + weight l')%nat.
Proof.
  induction ls as [|x t IH]; intros [|i] l l' H; simpl in H; try discriminate.
  - injection H as ->. simpl. rewrite !busy_cons. lia.
  - simpl. rewrite !busy_cons. specialize (IH i l l' H). lia.
Qed.

Lemma busy_remove (ls : list Loop) : forall i l,
  nth_error ls i = Some l -> (busy (remove_at i ls) + weight l = busy ls)%nat.
Proof.
  induction ls as [|x t IH]; intros [|i] l H; simpl in H; try discriminate.
  - injection H as ->. simpl. rewrite busy_cons. lia.
  - simpl. rewrite !busy_cons. specialize (IH i l H). lia.
Qed.

Lemma length_update (ls : list Loop) : forall i l,
  List.length (update i l ls) = List.length ls.
Proof. induction ls as [|x t IH]; intros [|i] l; simpl; auto. Qed.

Lemma length_remove (ls : list Loop) : forall i l,
  nth_error ls i = Some l -> List.length (remove_at i ls) = pred (List.length ls).
Proof.
  induction ls as [|x t IH]; intros [|i] l H; simpl in H; try discriminate; simpl.
  - reflexivity.
  - rewrite (IH i l H). destruct t; [destruct i; discriminate | reflexivity].
Qed.


Section Invariant.
Variable Task : Type.

Lemma guarded_Run : guarded (Run Task).
Proof. reflexivity. Qed.

Lemma guarded_step (e : Event Task) (c c' : Client Task) :
  guarded c -> step e c = Some c' -> guarded c'.
Proof.
  unfold guarded. intros Hg Hs. destruct e as [t n| | |i|i|i|i]; simpl in Hs.
  - destruct (mu c); [discriminate|]. unfold Start in Hs.
    destruct (wrap64 (n * Minute) <=? 0); injection Hs as <-; simpl.
    + exact Hg.
    + rewrite busy_app, Hg. unfold busy. simpl. lia.
  - destruct (mu c); [discriminate|]. injection Hs as <-. exact Hg.
  - destruct (mu c); [|discriminate]. unfold Stop_return in Hs.
    destruct (wg c); [|discriminate]. injection Hs as <-. exact Hg.
  - destruct (nth_error (loops c) i) as [[| |]|] eqn:En; try discriminate.
    injection Hs as <-. unfold processTask_enter.
    pose proof (busy_update (loops c) i Firing) as Hu.
    destruct (taskRunning c) eqn:Er; simpl.
    + specialize (Hu Waiting En). cbv [weight in_task] in Hu. lia.
    + specialize (Hu InTask En). cbv [weight in_task] in Hu. lia.
  - destruct (nth_error (loops c) i) as [[| |]|] eqn:En; try discriminate.
    injection Hs as <-. simpl.
    pose proof (busy_update (loops c) i InTask Waiting En) as Hu. cbv [weight in_task] in Hu.
    destruct (taskRunning c); lia.
  - destruct (nth_error (loops c) i) as [[| |]|] eqn:En; try discriminate.
    injection Hs as <-. simpl.
    pose proof (busy_update (loops c) i Waiting Firing En) as Hu. cbv [weight in_task] in Hu. lia.
  - destruct (nth_error (loops c) i) as [[| |]|] eqn:En; try discriminate.
    destruct (ctx c) as [[|]|]; try discriminate.
    injection Hs as <-. simpl.
    pose proof (busy_remove (loops c) i Waiting En) as Hu. cbv [weight in_task] in Hu. lia.
Qed.

Lemma guarded_exec (es : list (Event Task)) : forall c c',
  guarded c -> exec es c = Some c' -> guarded c'.
Proof.
  induction es as [|e es IH]; intros c c' Hg He; simpl in He.
  - injection He as <-. exact Hg.
  - destruct (step e c) as [c1|] eqn:Es; [|discriminate].
    apply (IH c1); [now apply (guarded_step e c) | exact He].
Qed.
End Invariant.
End SchedulerFacts.



(** ** Control of the trigger by the service *)

Module ControlFacts.
Import scheduler SchedulerFacts.

Lemma single_loop_Start (c : Client control.Task) (n : Z) :
  wg c = 0%nat -> loops c = [] ->
  single_loop (match Start c control.processUnsent n with
               | Returned c' => c'
               | Panicked c' => c'
               end).
Proof.
  intros Hw Hl. unfold Start, single_loop.
  destruct (wrap64 (n * Minute) <=? 0); simpl; rewrite Hw, Hl; simpl; lia.
Qed.

Lemma single_loop_loop_step (e : Event control.Task) (c c' : Client control.Task) :
  control.is_loop_event e = true -> single_loop c -> step e c = Some c' ->
  single_loop c'.
Proof.
  unfold single_loop. intros He [Hw Hl] Hs.
  destruct e as [t n| | |i|i|i|i]; try discriminate; simpl in Hs;
    destruct (nth_error (loops c) i) as [[| |]|] eqn:En; try discriminate.
  - injection Hs as <-. unfold processTask_enter.
    destruct (taskRunning c); simpl; rewrite length_update; auto.
  - injection Hs as <-. simpl. rewrite length_update; auto.
  - injection Hs as <-. simpl. rewrite length_update; auto.
  - destruct (ctx c) as [[|]|]; try discriminate. injection Hs as <-. simpl.
    rewrite (length_remove _ _ _ En), Hw. split; [reflexivity | lia].
Qed.

Lemma single_loop_step (e : control.Event) (s s' : control.Service) :
  single_loop (control.sched s) -> control.step e s = Some s' ->
  single_loop (control.sched s').
Proof.
  intros Hinv Hs. destruct e as [n b| | |le]; simpl in Hs.
  - unfold control.enter_stop in Hs. destruct (control.inflight s); [discriminate|].
    destruct (mu (control.sched s)); [discriminate|]. injection Hs as <-. exact Hinv.
  - unfold control.enter_stop in Hs. destruct (control.inflight s); [discriminate|].
    destruct (mu (control.sched s)); [discriminate|]. injection Hs as <-. exact Hinv.
  - unfold control.resume in Hs. destruct (control.inflight s) as [k|]; [|discriminate].
    unfold Stop_return in Hs. destruct Hinv as [Hw Hl].
    destruct (wg (control.sched s)) eqn:Ew; [|discriminate].
    assert (Hnil : loops (control.sched s) = []).
    { destruct (loops (control.sched s)); [reflexivity | discriminate]. }
    destruct k as [|n b]; injection Hs as <-; simpl.
    + unfold single_loop. simpl. rewrite Hnil. simpl. lia.
    + apply single_loop_Start; simpl; auto.
  - destruct (control.is_loop_event le) eqn:El; [|discriminate].
    destruct (step le (control.sched s)) as [c|] eqn:Es; [|discriminate].
    injection Hs as <-. simpl. now apply (single_loop_loop_step le (control.sched s)).
Qed.

Lemma single_loop_exec (es : list control.Event) : forall s s',
  single_loop (control.sched s) -> control.exec es s = Some s' ->
  single_loop (control.sched s').
Proof.
  induction es as [|e es IH]; intros s s' Hinv He; simpl in He.
  - injection He as <-. exact Hinv.
  - destruct (control.step e s) as [s1|] eqn:Es; [|discriminate].
    apply (IH s1); [now apply (single_loop_step e s) | exact He].
Qed.

Lemma single_loop_NewService (minutes batch : Z) (s : control.Service) :
  control.NewService minutes batch = Some s -> single_loop (control.sched s).
Proof.
  unfold control.NewService, Start. intros H.
  destruct (wrap64 (minutes * Minute) <=? 0); [discriminate|].
  injection H as <-. unfold single_loop. simpl. lia.
Qed.
End ControlFacts.

(** C3 (as the code has it): [Start] of the scheduler does not stop a
    running loop; the stop is made by [StartScheduler] of the service,
    which calls [Stop] first.  For calls of [StartScheduler] and
    [StopScheduler] that come one at a time, at most one loop of the
    trigger is alive in every state reached, and the [Start] of a
    [StartScheduler] runs only once no loop is left, with the new interval
    and batch size. *)
Theorem restart_through_service (minutes batch : Z) (s0 s : control.Service)
    (es : list control.Event) :
  control.NewService minutes batch = Some s0 ->
  control.exec es s0 = Some s ->
  (List.length (scheduler.loops (control.sched s)) <= 1)%nat /\
  scheduler.wg (control.sched s) = List.length (scheduler.loops (control.sched s)) /\
  forall n b s1,
    control.inflight s = Some (control.ThenStart n b) ->
    control.step control.Resume s = Some s1 ->
    scheduler.loops (control.sched s) = [] /\
    (List.length (scheduler.loops (control.sched s1)) <= 1)%nat /\
    control.intervalMinutes s1 = n /\ control.messageBatchSize s1 = b /\
    scheduler.interval (control.sched s1) = scheduler.wrap64 (n * scheduler.Minute).
Proof.
  intros Hnew Hexec.
  pose proof (ControlFacts.single_loop_exec es s0 s
                (ControlFacts.single_loop_NewService _ _ _ Hnew) Hexec) as [Hw Hl].
  split; [exact Hl|]. split; [exact Hw|].
  intros n b s1 Hin Hres.
  pose proof (ControlFacts.single_loop_step control.Resume s s1 (conj Hw Hl) Hres)
    as [_ Hl1].
  simpl in Hres. unfold control.resume in Hres. rewrite Hin in Hres.
  unfold scheduler.Stop_return in Hres.
  destruct (scheduler.wg (control.sched s)) eqn:Ew; [|discriminate].
  split.
  { destruct (scheduler.loops (control.sched s)); [reflexivity | discriminate]. }
  split; [exact Hl1|].
  injection Hres as <-. simpl. split; [reflexivity|]. split; [reflexivity|].
  unfold scheduler.Start. destruct (scheduler.wrap64 (n * scheduler.Minute) <=? 0); reflexivity.
Qed.

Lemma restart_through_service_witness :
  exists s0 s,
    control.NewService 2 2 = Some s0 /\
    control.exec [control.Loop (scheduler.EvFire 0); control.StartScheduler 1 5;
                  control.Loop (scheduler.EvDone 0); control.Loop (scheduler.EvQuit 0)]
      s0 = Some s /\
    control.inflight s = Some (control.ThenStart 1 5) /\
    scheduler.loops (control.sched s) = [] /\
    exists s1,
      control.step control.Resume s = Some s1 /\
      (List.length (scheduler.loops (control.sched s1)) <= 1)%nat /\
      control.intervalMinutes s1 = 1 /\ control.messageBatchSize s1 = 5.
Proof.
  eexists. eexists. split; [vm_compute; reflexivity|].
  split; [vm_compute; reflexivity|]. split; [reflexivity|].
  match goal with |- scheduler.loops (control.sched ?s) = [] /\ _ =>
    destruct (restart_through_service 2 2 _ s
                [control.Loop (scheduler.EvFire 0); control.StartScheduler 1 5;
                 control.Loop (scheduler.EvDone 0); control.Loop (scheduler.EvQuit 0)]
                eq_refl eq_refl) as (_ & _ & H)
  end.
  split; [reflexivity|].
  eexists. split; [vm_compute; reflexivity|].
  match goal with |- (List.length (scheduler.loops (control.sched ?s1)) <= 1)%nat /\ _ =>
    destruct (H 1 5 s1 eq_refl eq_refl) as (_ & Hl & Hn & Hb & _)
  end.
  split; [exact Hl|]. split; [exact Hn | exact Hb].
Defined.

(** C3, as stated, fails: [Start] called on a trigger whose loop is alive
    and inside the task starts a second loop at once; both are then alive,
    without the trigger having been through a state with no loop. *)
Lemma Start_while_running_overlaps :
  exists c1 c2,
    scheduler.exec [scheduler.EvStart control.processUnsent 2; scheduler.EvFire 0]
      (scheduler.Run control.Task) = Some c1 /\
    scheduler.Running c1 /\
    scheduler.Start c1 control.processUnsent 1 = scheduler.Returned c2 /\
    scheduler.loops c2 = [scheduler.InTask; scheduler.Firing] /\
    scheduler.wg c2 = 2%nat /\
    scheduler.ctx c2 = Some false.
Proof.
  eexists. eexists. split; [vm_compute; reflexivity|].
  split; [unfold scheduler.Running; simpl; discriminate|].
  split; [vm_compute; reflexivity|].
  repeat split; reflexivity.
Qed.

(** * Further properties *)

(** ** Validation *)

(** X1: the error of [Validate] names the first check that fails, in the
    order: phone number empty, phone number not of the pattern, content
    empty, content longer than 500 bytes. *)
Theorem Validate_first_violation (m : Message) (e : error) :
  Validate m = Some e <->
  (PhoneNumber m = EmptyString /\ e = "phone number is required") \/
  (PhoneNumber m <> EmptyString /\ ~ phone_number_like (PhoneNumber m) /\
   e = "invalid phone number format (expected: +1234567890)") \/
  (phone_number_like (PhoneNumber m) /\ Content m = EmptyString /\
   e = "message content is required") \/
  (phone_number_like (PhoneNumber m) /\ Content m <> EmptyString /\
   MaxContentLength < len (Content m) /\
   e = "message content exceeds maximum length of 500 characters").
Proof.
  unfold Validate.
  destruct (is_empty (PhoneNumber m)) eqn:Ep.
  { apply is_empty_true in Ep. split.
    - intros H. injection H as <-. left. now split.
    - intros [[_ ->]|[[H _]|[[H _]|[H _]]]]; try reflexivity; try contradiction;
        rewrite Ep in H; now apply not_phone_number_like_empty in H. }
  assert (Hp : PhoneNumber m <> EmptyString).
  { intros H. apply is_empty_true in H. congruence. }
  destruct (Regexp.MatchString phoneRegex (PhoneNumber m)) eqn:Em; simpl.
  2:{ assert (Hn : ~ phone_number_like (PhoneNumber m)).
      { intros H. apply RegexpFacts.phoneRegex_matches in H. congruence. }
      split.
      - intros H. injection H as <-. right; left. repeat split; assumption.
      - intros [[H _]|[[_ [_ ->]]|[[H _]|[H _]]]]; try reflexivity; contradiction. }
  apply RegexpFacts.phoneRegex_matches in Em.
  destruct (is_empty (Content m)) eqn:Ec.
  { apply is_empty_true in Ec. split.
    - intros H. injection H as <-. right; right; left. repeat split; assumption.
    - intros [[H _]|[[_ [H _]]|[[_ [_ ->]]|[_ [H _]]]]]; try reflexivity; contradiction. }
  assert (Hc : Content m <> EmptyString).
  { intros H. apply is_empty_true in H. congruence. }
  destruct (Z.gtb_spec (len (Content m)) MaxContentLength) as [Hl|Hl].
  - split.
    + intros H. injection H as <-. right; right; right. repeat split; assumption.
    + intros [[H _]|[[_ [H _]]|[[_ [H _]]|[_ [_ [_ ->]]]]]]; try reflexivity; contradiction.
  - split; [discriminate|].
    intros [[H _]|[[_ [H _]]|[[_ [H _]]|[_ [_ [H _]]]]]]; try contradiction; lia.
Qed.

Lemma all_digits_plain (s : string) :
  all_digits s = true ->
  forall c, In c (list_ascii_of_string s) -> is_digit c = true.
Proof.
  induction s as [|d s IH]; simpl; intros H c Hc; [contradiction|].
  apply andb_true_iff in H as [Hd Hs]. destruct Hc as [<-|Hc]; auto.
Qed.

Lemma list_ascii_of_string_append (s t : string) :
  list_ascii_of_string (s ++ t) = (list_ascii_of_string s ++ list_ascii_of_string t)%list.
Proof. induction s as [|c s IH]; simpl; [reflexivity | now rewrite IH]. Qed.

(** X2: a message that passes [Validate] fits the columns of the table:
    its phone number has between 2 and 16 bytes (the column holds 20),
    each of them a digit or the sign [+], and its content has between 1
    and 500 bytes (the column holds 500 characters). *)
Theorem Validate_fits_schema (m : Message) :
  Validate m = None ->
  2 <= len (PhoneNumber m) <= 16 /\
  (forall c, In c (list_ascii_of_string (PhoneNumber m)) ->
             is_digit c = true \/ c = "+"%char) /\
  1 <= len (Content m) <= MaxContentLength.
Proof.
  intros H. apply Validate_None_iff in H as ((sign & d & rest & E & Hs & Hd & Hr & Hl) & Hc & Hm).
  unfold len. rewrite E, RegexpFacts.length_append. simpl.
  split; [destruct Hs as [-> | ->]; simpl; lia|]. split.
  - intros c Hc'. rewrite list_ascii_of_string_append in Hc'. simpl in Hc'.
    apply in_app_or in Hc' as [Hc'|[<-|Hc']].
    + destruct Hs as [-> | ->]; simpl in Hc'; [contradiction|].
      destruct Hc' as [<-|[]]. now right.
    + left. unfold is_nonzero_digit, is_digit, Regexp.in_range in *.
      apply andb_true_iff in Hd as [H1 H2]. apply andb_true_iff. split; [|exact H2].
      apply N.leb_le in H1. apply N.leb_le. simpl in *. lia.
    + left. now apply (all_digits_plain rest).
  - split; [|exact Hm]. destruct (Content m); [congruence | simpl; lia].
Qed.

Lemma Validate_fits_schema_witness :
  2 <= len "+1234567890" <= 16 /\
  (forall c, In c (list_ascii_of_string "+1234567890") ->
             is_digit c = true \/ c = "+"%char) /\
  1 <= len "hello" <= MaxContentLength.
Proof.
  apply (Validate_fits_schema (draft "+1234567890" "hello")). reflexivity.
Defined.

(** ** The dispatch cycle on any connection *)

Module AnyFacts.
Import Pg PgFacts CycleFacts ClaimFacts RunFacts.

Lemma touched_refl (ids : list Z) (l : list messages.Message) :
  Forall2 (touched ids) l l.
Proof. induction l; constructor; [now left | assumption]. Qed.

Lemma set_outcome_twice (a b : option string) (c d : option Time) (r : messages.Message) :
  set_outcome a c (set_outcome b d r) = set_outcome a c r.
Proof. reflexivity. Qed.

Lemma touched_trans (ids1 ids2 : list Z) (l1 : list messages.Message) :
  forall l2 l3,
    Forall2 (touched ids1) l1 l2 -> Forall2 (touched ids2) l2 l3 ->
    Forall2 (touched (ids1 ++ ids2)) l1 l3.
Proof.
  induction l1 as [|x l1 IH]; intros l2 l3 H12 H23.
  - inversion H12; subst. inversion H23; subst. constructor.
  - inversion H12 as [|? y ? l2' Hxy H12']; subst.
    inversion H23 as [|? z ? l3' Hyz H23']; subst.
    constructor; [|now apply (IH l2')].
    destruct Hxy as [-> | (Hin & ref & tm & ->)].
    + destruct Hyz as [-> | (Hin & ref & tm & ->)]; [now left | right].
      split; [apply in_or_app; now right | now exists ref, tm].
    + right. split; [apply in_or_app; now left|].
      destruct Hyz as [-> | (_ & ref' & tm' & ->)];
        [now exists ref, tm | now exists ref', tm'].
Qed.

Lemma touched_update (id : Z) (ref : string) (tm : Time) (miss : bool)
    (l : list messages.Message) :
  Forall2 (touched [id]) l
    (map (fun r => if (messages.ID r =? id) && negb miss
                   then set_outcome (Some ref) (Some tm) r else r) l).
Proof.
  induction l as [|x l IH]; simpl; constructor; [|exact IH].
  destruct (Z.eqb_spec (messages.ID x) id) as [E|E]; destruct miss; simpl;
    try (now left).
  right. split; [simpl; now left | now exists ref, tm].
Qed.

(** One turn of the loop, whatever fails: only the table of the
    transaction can change, and only at rows of the id of the message. *)
Lemma loopBody_any (m : messages.Message) (w : World) (t : TxState) :
  tx w = Some t ->
  exists w1 tr1 t1,
    loopBody ops (toDomain m) w = (tt, w1, tr1) /\
    rows w1 = rows w /\ nextval w1 = nextval w /\ locked w1 = locked w /\
    faults w1 = faults w /\ sends w1 = S (sends w) /\
    tx w1 = Some t1 /\ held t1 = held t /\
    Forall2 (touched [messages.ID m]) (work t) (work t1) /\
    ~ In CallRollback tr1 /\ ~ In CallCommit tr1 /\
    filter is_send tr1 = [CallSend (messages.PhoneNumber m) (messages.Content m)].
Proof.
  intros Htx.
  destruct w as [rs nv lk tx0 sn rd f]; destruct t as [wk hd ab]; simpl in *; subst.
  unfold loopBody, sendMessageWithTx, SendMessage, UpdateWithTx, bind, call, quiet, ret.
  simpl.
  destruct (delivery f sn) as [ref|e] eqn:Ed; simpl.
  - unfold exec_update; simpl. destruct ab; simpl.
    { do 3 eexists. split; [reflexivity|]. simpl.
      repeat split; auto; try apply touched_refl; intuition discriminate. }
    destruct (exec_fault f (messages.ID m)) as [ee|]; simpl.
    { do 3 eexists. split; [reflexivity|]. simpl.
      repeat split; auto; try apply touched_refl; intuition discriminate. }
    match goal with |- context [if ?b then _ else _] => destruct b end; simpl;
      do 3 eexists; (split; [reflexivity|]); simpl;
      repeat split; auto; try apply touched_update; intuition discriminate.
  - do 3 eexists. split; [reflexivity|]. simpl.
    repeat split; auto; try apply touched_refl; intuition discriminate.
Qed.

Lemma sendEach_any (msgs : list messages.Message) : forall (w : World) (t : TxState),
  tx w = Some t ->
  exists w' tr t',
    sendEach ops (ToDomainSlice msgs) w = (tt, w', tr) /\
    rows w' = rows w /\ nextval w' = nextval w /\ locked w' = locked w /\
    faults w' = faults w /\ sends w' = (sends w + List.length msgs)%nat /\
    tx w' = Some t' /\ held t' = held t /\
    Forall2 (touched (map messages.ID msgs)) (work t) (work t') /\
    ~ In CallRollback tr /\ ~ In CallCommit tr /\
    filter is_send tr =
      map (fun m => CallSend (messages.PhoneNumber m) (messages.Content m)) msgs.
Proof.
  induction msgs as [|m rest IH]; intros w t Htx.
  - exists w, [], t. simpl. unfold ret. repeat split; auto. apply touched_refl.
  - destruct (loopBody_any m w t Htx)
      as (w1 & tr1 & t1 & E1 & Hr1 & Hn1 & Hl1 & Hf1 & Hs1 & Htx1 & Hh1 & Ht1
          & Hnr1 & Hnc1 & Hsend1).
    destruct (IH w1 t1 Htx1)
      as (w2 & tr2 & t2 & E2 & Hr2 & Hn2 & Hl2 & Hf2 & Hs2 & Htx2 & Hh2 & Ht2
          & Hnr2 & Hnc2 & Hsend2).
    exists w2, (tr1 ++ tr2)%list, t2. split.
    { simpl. unfold bind at 1. rewrite E1. rewrite E2. reflexivity. }
    repeat split; try congruence.
    + rewrite Hs2, Hs1. simpl. lia.
    + apply (touched_trans [messages.ID m] (map messages.ID rest) (work t) (work t1));
        assumption.
    + intros Hin. apply in_app_or in Hin as [Hin|Hin]; contradiction.
    + intros Hin. apply in_app_or in Hin as [Hin|Hin]; contradiction.
    + rewrite filter_app, Hsend1, Hsend2. reflexivity.
Qed.
End AnyFacts.

Module WholeFacts.
Import Pg PgFacts CycleFacts ClaimFacts RunFacts AnyFacts.

Lemma batch_same (w1 w2 : World) (n : Z) :
  rows w1 = rows w2 -> locked w1 = locked w2 -> batch w1 n = batch w2 n.
Proof.
  intros Hr Hl. unfold batch, select_unsent, opened, free. simpl. now rewrite Hr, Hl.
Qed.

Lemma claim_any (w : World) (limit : Z) :
  tx w = None -> begin_fault (faults w) = None -> query_fault (faults w) = None ->
  scan_fault (faults w) = None -> iter_fault (faults w) = None -> 0 <= limit ->
  exists w1 w2,
    BeginTx ops w = (None, w1, [CallBegin]) /\
    ListAndLockUnsent ops limit w1 =
      (Ok (batch w limit), w2, [CallQueryUnsent limit]) /\
    rows w2 = rows w /\ nextval w2 = nextval w /\ faults w2 = faults w /\
    sends w2 = sends w /\ reads w2 = reads w /\
    locked w2 = (locked w ++ map messages.ID (batch w limit))%list /\
    tx w2 = Some {| work := rows w; held := map messages.ID (batch w limit);
                    aborted := false |}.
Proof.
  intros Htx Hb Hq Hs Hi Hl.
  destruct w as [rs nv lk tx0 sn rd f]. simpl in *. subst tx0.
  unfold BeginTx, ListAndLockUnsent, bind, call, ret. simpl.
  unfold begin, query_unsent. simpl. rewrite Hb. simpl.
  do 2 eexists. split; [reflexivity|]. simpl.
  rewrite Hq, Hs, Hi. destruct (Z.ltb_spec limit 0) as [Hneg|_]; [lia|]. simpl.
  rewrite filter_true.
  split; [reflexivity|]. simpl. repeat split; reflexivity.
Qed.

Lemma commit_any (w : World) (t : TxState) :
  tx w = Some t ->
  exists ans w',
    commit w = (ans, w') /\ tx w' = None /\ locked w' = release w t /\
    nextval w' = nextval w /\ faults w' = faults w /\ sends w' = sends w /\
    ((ans = None /\ rows w' = work t /\ commit_fault (faults w) = None) \/
     (exists e, ans = Some e /\ rows w' = rows w)).
Proof.
  intros Htx. unfold commit. rewrite Htx.
  destruct (aborted t).
  { do 2 eexists. split; [reflexivity|]. simpl. repeat split; auto.
    right. eexists. split; reflexivity. }
  destruct (commit_fault (faults w)) as [e|] eqn:Ec.
  - do 2 eexists. split; [reflexivity|]. simpl. repeat split; auto.
    right. eexists. split; reflexivity.
  - do 2 eexists. split; [reflexivity|]. simpl. repeat split; auto.
Qed.

(** A cycle whose claim succeeds ends with the commit, failed or not. *)
Lemma cycle_claimed (w : World) (limit : Z) :
  tx w = None -> begin_fault (faults w) = None -> query_fault (faults w) = None ->
  scan_fault (faults w) = None -> iter_fault (faults w) = None -> 0 <= limit ->
  exists err w' tr,
    ProcessUnsentMessages ops limit w = (err, w', tr) /\ ending w limit err w' tr.
Proof.
  intros Htx Hb Hq Hs Hi Hl.
  destruct (claim_any w limit Htx Hb Hq Hs Hi Hl)
    as (w1 & w2 & E1 & E2 & Hr2 & Hn2 & Hf2 & Hs2 & Hd2 & Hk2 & Htx2).
  assert (Hloop : exists w3 tr t3,
            match batch w limit with
            | [] => ret tt
            | _ :: _ => sendEach ops (ToDomainSlice (batch w limit))
            end w2 = (tt, w3, tr) /\
            rows w3 = rows w2 /\ nextval w3 = nextval w2 /\ locked w3 = locked w2 /\
            faults w3 = faults w2 /\
            sends w3 = (sends w2 + List.length (batch w limit))%nat /\
            tx w3 = Some t3 /\ held t3 = map messages.ID (batch w limit) /\
            Forall2 (touched (map messages.ID (batch w limit))) (rows w) (work t3) /\
            ~ In CallRollback tr /\ ~ In CallCommit tr /\
            filter is_send tr =
              map (fun m => CallSend (messages.PhoneNumber m) (messages.Content m))
                (batch w limit)).
  { destruct (batch w limit) as [|r0 rest] eqn:Eb.
    - exists w2, [], {| work := rows w; held := []; aborted := false |}.
      unfold ret. simpl. repeat split; auto. apply touched_refl.
    - destruct (sendEach_any (r0 :: rest) w2 _ Htx2) as (w3 & tr & t3 & H).
      exists w3, tr, t3. exact H. }
  destruct Hloop as (w3 & tr & t3 & E3 & Hr3 & Hn3 & Hk3 & Hf3 & Hs3 & Htx3 & Hh3
                     & Ht3 & Hnr & Hnc & Hsend).
  destruct (commit_any w3 t3 Htx3)
    as (ans & w4 & E4 & Htx4 & Hk4 & Hn4 & Hf4 & Hs4 & Hans).
  assert (Hlock : locked w4 = locked w).
  { rewrite Hk4. unfold release. rewrite Hh3, Hk3, Hk2.
    apply release_own. intros i Hin. now apply batch_unlocked in Hin. }
  assert (Hrun : ProcessUnsentMessages ops limit w =
            (match ans with
             | Some e => Some (wrap "failed to commit transaction" e)
             | None => None
             end, w4, CallBegin :: CallQueryUnsent limit :: tr ++ [CallCommit])).
  { unfold ProcessUnsentMessages, bind. rewrite E1, E2.
    destruct (batch w limit) as [|r0 rest] eqn:Eb.
    - unfold ret in E3. injection E3 as <- <-.
      unfold call. simpl tx_commit. rewrite E4. destruct ans; reflexivity.
    - rewrite E3. unfold call. simpl tx_commit. rewrite E4. destruct ans; reflexivity. }
  assert (Hok : ~ claim_fails w limit).
  { unfold claim_fails. intros [H|[H|[H|H]]]; try contradiction; lia. }
  rewrite Hrun. do 3 eexists. split; [reflexivity|].
  destruct Hans as [(-> & Hrows & Hc) | (e & -> & Hrows)].
  - apply ends_committed; try assumption; congruence.
  - apply ends_uncommitted; try assumption; congruence.
Qed.

(** Every cycle ends in one of the four ways. *)
Lemma cycle_any (w : World) (limit : Z) (err : option error) (w' : World)
    (tr : list Call) :
  tx w = None ->
  ProcessUnsentMessages ops limit w = (err, w', tr) -> ending w limit err w' tr.
Proof.
  intros Htx Hrun.
  destruct (begin_fault (faults w)) as [eb|] eqn:Eb.
  { destruct w as [rs nv lk tx0 sn rd f]. simpl in *. subst tx0.
    unfold ProcessUnsentMessages, BeginTx, bind, call, ret in Hrun.
    simpl in Hrun. unfold begin in Hrun. simpl in Hrun. rewrite Eb in Hrun.
    simpl in Hrun. injection Hrun as <- <- <-. now apply ends_unopened. }
  destruct (query_fault (faults w)) as [eq|] eqn:Eq.
  { destruct w as [rs nv lk tx0 sn rd f]. simpl in *. subst tx0.
    unfold ProcessUnsentMessages, BeginTx, ListAndLockUnsent, deferredRollback,
      bind, call, ret in Hrun.
    simpl in Hrun. unfold begin in Hrun. simpl in Hrun. rewrite Eb in Hrun.
    simpl in Hrun. unfold query_unsent in Hrun. simpl in Hrun. rewrite Eq in Hrun.
    simpl in Hrun. injection Hrun as <- <- <-.
    rewrite release_nothing by reflexivity. simpl.
    apply ends_unclaimed; [assumption|]. left. simpl. congruence. }
  destruct (Z.ltb_spec limit 0) as [Hneg|Hl].
  { destruct w as [rs nv lk tx0 sn rd f]. simpl in *. subst tx0.
    unfold ProcessUnsentMessages, BeginTx, ListAndLockUnsent, deferredRollback,
      bind, call, ret in Hrun.
    simpl in Hrun. unfold begin in Hrun. simpl in Hrun. rewrite Eb in Hrun.
    simpl in Hrun. unfold query_unsent in Hrun. simpl in Hrun. rewrite Eq in Hrun.
    pose proof Hneg as Hneg'. apply Z.ltb_lt in Hneg'. rewrite Hneg' in Hrun.
    simpl in Hrun. injection Hrun as <- <- <-.
    rewrite release_nothing by reflexivity. simpl.
    apply ends_unclaimed; [assumption|]. right; left. lia. }
  destruct (scan_fault (faults w)) as [es|] eqn:Es.
  { pose proof (batch_unlocked w limit) as Hrel.
    destruct w as [rs nv lk tx0 sn rd f]. simpl in *. subst tx0.
    unfold ProcessUnsentMessages, BeginTx, ListAndLockUnsent, deferredRollback,
      bind, call, ret in Hrun.
    simpl in Hrun. unfold begin in Hrun. simpl in Hrun. rewrite Eb in Hrun.
    simpl in Hrun. unfold query_unsent in Hrun. simpl in Hrun. rewrite Eq, Es in Hrun.
    apply Z.ltb_ge in Hl. rewrite Hl in Hrun. rewrite filter_true in Hrun.
    simpl in Hrun. injection Hrun as <- <- <-.
    unfold release. simpl. rewrite release_own by exact Hrel.
    apply ends_unclaimed; [assumption|]. right; right; left. simpl. congruence. }
  destruct (iter_fault (faults w)) as [ei|] eqn:Ei.
  { pose proof (batch_unlocked w limit) as Hrel.
    destruct w as [rs nv lk tx0 sn rd f]. simpl in *. subst tx0.
    unfold ProcessUnsentMessages, BeginTx, ListAndLockUnsent, deferredRollback,
      bind, call, ret in Hrun.
    simpl in Hrun. unfold begin in Hrun. simpl in Hrun. rewrite Eb in Hrun.
    simpl in Hrun. unfold query_unsent in Hrun. simpl in Hrun.
    rewrite Eq, Es, Ei in Hrun.
    apply Z.ltb_ge in Hl. rewrite Hl in Hrun. rewrite filter_true in Hrun.
    simpl in Hrun. injection Hrun as <- <- <-.
    unfold release. simpl. rewrite release_own by exact Hrel.
    apply ends_unclaimed; [assumption|]. right; right; right. simpl. congruence. }
  destruct (cycle_claimed w limit Htx Eb Eq Es Ei Hl) as (err0 & w0 & tr0 & E & H).
  rewrite E in Hrun. injection Hrun as <- <- <-. exact H.
Qed.
End WholeFacts.

(** X3: a cycle that returns an error has changed no row of the table,
    whatever failed and however far it got, and every row that a claim
    would have selected before the cycle is selected by a claim after it. *)
Theorem error_leaves_table (w w' : Pg.World) (limit : Z) (e : error) (tr : list Call) :
  Pg.tx w = None ->
  ProcessUnsentMessages Pg.ops limit w = (Some e, w', tr) ->
  Pg.rows w' = Pg.rows w /\ forall n, batch w' n = batch w n.
Proof.
  intros Htx Hrun. apply WholeFacts.cycle_any in Hrun; [|exact Htx].
  inversion Hrun; subst.
  - split; reflexivity.
  - split; reflexivity.
  - split; [assumption|]. intros n. now apply WholeFacts.batch_same.
Qed.

Lemma error_leaves_table_witness :
  exists e w' tr,
    ProcessUnsentMessages Pg.ops 2 (world_of three commit_breaks) = (Some e, w', tr) /\
    Pg.rows w' = three /\
    forall n, batch w' n = batch (world_of three commit_breaks) n.
Proof.
  eexists. eexists. eexists. split; [vm_compute; reflexivity|].
  match goal with |- Pg.rows ?w' = three /\ _ =>
    apply (error_leaves_table (world_of three commit_breaks) w' 2
             "failed to commit transaction: conn closed"
             (snd (ProcessUnsentMessages Pg.ops 2 (world_of three commit_breaks))))
  end.
  - reflexivity.
  - vm_compute. reflexivity.
Defined.

Lemma touched_evolves (ids : list Z) (l : list messages.Message) : forall l',
  Forall2 (touched ids) l l' ->
  (forall r, In r l -> In (messages.ID r) ids -> messages.ProcessedAt r = None) ->
  Forall2 evolves l l'.
Proof.
  induction l as [|x l IH]; intros l' H Hp; inversion H as [|? y ? l2 Hxy H']; subst;
    constructor.
  - destruct Hxy as [-> | (Hin & Hex)]; [now left | right].
    split; [apply Hp; [now left | exact Hin] | exact Hex].
  - apply IH; [exact H'|]. intros r Hr. apply Hp. now right.
Qed.

Lemma evolves_ids (l : list messages.Message) : forall l',
  Forall2 evolves l l' -> map messages.ID l' = map messages.ID l.
Proof.
  induction l as [|x l IH]; intros l' H; inversion H as [|? y ? l2 Hxy H']; subst;
    simpl; [reflexivity|].
  rewrite (IH l2 H'). f_equal.
  destruct Hxy as [-> | (_ & ref & tm & ->)]; reflexivity.
Qed.

Lemma evolves_refl (l : list messages.Message) : Forall2 evolves l l.
Proof. induction l; constructor; [now left | assumption]. Qed.

(** X4: over a cycle, whatever fails, the table keeps its rows in place:
    each row is as before or, if it was pending, completed; no row is
    added, removed or reopened, and [id] stays a key. *)
Theorem rows_only_complete (w w' : Pg.World) (limit : Z) (err : option error)
    (tr : list Call) :
  Pg.tx w = None -> primary_key w ->
  ProcessUnsentMessages Pg.ops limit w = (err, w', tr) ->
  Forall2 evolves (Pg.rows w) (Pg.rows w') /\
  map messages.ID (Pg.rows w') = map messages.ID (Pg.rows w) /\
  primary_key w'.
Proof.
  intros Htx Hpk Hrun.
  assert (H : Forall2 evolves (Pg.rows w) (Pg.rows w')).
  { apply WholeFacts.cycle_any in Hrun; [|exact Htx].
    inversion Hrun; subst; try apply evolves_refl.
    - match goal with H : Pg.rows _ = Pg.rows _ |- _ => rewrite H end.
      apply evolves_refl.
    - eapply touched_evolves; [eassumption|].
      intros r Hr Hin. apply in_map_iff in Hin as (y & E & Hy).
      pose proof (ClaimFacts.select_unsent_In _ _ _ _ Hy) as (Hy1 & Hy2 & _).
      simpl in Hy1.
      assert (r = y) as ->; [|exact Hy2].
      apply (PgFacts.key_determines (Pg.rows w)); auto. }
  split; [exact H|]. pose proof (evolves_ids _ _ H) as Hid.
  split; [exact Hid|]. unfold primary_key in *. now rewrite Hid.
Qed.

Lemma rows_only_complete_witness :
  Forall2 evolves three
    [Pg.set_outcome (Some "ref") (Some 1001) (queued 3 30);
     Pg.set_outcome (Some "ref") (Some 1000) (queued 1 10);
     queued 2 20].
Proof.
  destruct (rows_only_complete (world_of three second_fails)
              (snd (fst (ProcessUnsentMessages Pg.ops 3 (world_of three second_fails))))
              3 None
              (snd (ProcessUnsentMessages Pg.ops 3 (world_of three second_fails))))
    as (H & _).
  - reflexivity.
  - apply primary_key_three.
  - vm_compute. reflexivity.
  - exact H.
Defined.

(** X5: a cycle leaves no transaction open and no lock behind, whatever
    fails: after it the locks are those held before it by others, and the
    sequence of ids is where it was. *)
Theorem cycle_releases (w w' : Pg.World) (limit : Z) (err : option error)
    (tr : list Call) :
  Pg.tx w = None ->
  ProcessUnsentMessages Pg.ops limit w = (err, w', tr) ->
  Pg.tx w' = None /\ Pg.locked w' = Pg.locked w /\ Pg.nextval w' = Pg.nextval w.
Proof.
  intros Htx Hrun. apply WholeFacts.cycle_any in Hrun; [|exact Htx].
  inversion Hrun; subst; repeat split; assumption.
Qed.

Lemma cycle_releases_witness :
  exists err w' tr,
    ProcessUnsentMessages Pg.ops 2 (world_of three commit_breaks) = (err, w', tr) /\
    Pg.tx w' = None /\ Pg.locked w' = [] /\ Pg.nextval w' = 100.
Proof.
  eexists. eexists. eexists. split; [vm_compute; reflexivity|].
  match goal with |- Pg.tx ?w' = None /\ _ =>
    apply (cycle_releases (world_of three commit_breaks) w' 2
             (Some "failed to commit transaction: conn closed")
             (snd (ProcessUnsentMessages Pg.ops 2 (world_of three commit_breaks))))
  end.
  - reflexivity.
  - vm_compute. reflexivity.
Defined.



(** X7: when the claim succeeds and the commit fails, the cycle returns
    the commit's error without calling the rollback; every claimed row has
    been handed to the webhook, yet no row of the table has changed, so the
    same rows are claimed, and delivered, again by a later cycle. *)
Theorem commit_failure_redelivers (w : Pg.World) (limit : Z) (e : error) :
  Pg.tx w = None -> Pg.begin_fault (Pg.faults w) = None -> ~ claim_fails w limit ->
  Pg.commit_fault (Pg.faults w) = Some e ->
  exists e' w' tr,
    ProcessUnsentMessages Pg.ops limit w =
      (Some (wrap "failed to commit transaction" e'), w',
       CallBegin :: CallQueryUnsent limit :: tr ++ [CallCommit]) /\
    ~ In CallRollback tr /\
    filter is_send tr =
      map (fun m => CallSend (messages.PhoneNumber m) (messages.Content m))
        (batch w limit) /\
    Pg.rows w' = Pg.rows w /\
    forall n, batch w' n = batch w n.
Proof.
  intros Htx Hb Hok Hc.
  destruct (ProcessUnsentMessages Pg.ops limit w) as [[err w'] tr] eqn:Hrun.
  pose proof (WholeFacts.cycle_any w limit err w' tr Htx Hrun) as Hend.
  inversion Hend as [e0 Hb0|e0 Hb0 Hf|e0 w0 tr0 Hb0 Hok0 Hr Hn Hk Hf Ht Hs Hnr Hnc Hsend
                     |w0 tr0 Hb0 Hok0 Hc0 Hr Hn Hk Hf Ht Hs Hnr Hnc Hsend]; subst.
  - congruence.
  - contradiction.
  - exists e0, w', tr0. repeat split; try assumption.
    intros n. now apply WholeFacts.batch_same.
  - congruence.
Qed.

Lemma commit_failure_redelivers_witness :
  exists e' w' tr,
    ProcessUnsentMessages Pg.ops 2 (world_of three commit_breaks) =
      (Some (wrap "failed to commit transaction" e'), w',
       CallBegin :: CallQueryUnsent 2 :: tr ++ [CallCommit]) /\
    ~ In CallRollback tr /\
    filter is_send tr =
      map (fun m => CallSend (messages.PhoneNumber m) (messages.Content m))
        (batch (world_of three commit_breaks) 2) /\
    Pg.rows w' = three /\
    forall n, batch w' n = batch (world_of three commit_breaks) n.
Proof.
  apply (commit_failure_redelivers (world_of three commit_breaks) 2 "conn closed").
  - reflexivity.
  - reflexivity.
  - unfold claim_fails. simpl. intros [H|[H|[H|H]]]; try (now apply H); lia.
  - reflexivity.
Defined.

(** X8: on a connection that does not fail, a claimed row whose delivery
    succeeded and whose update found it is completed by the cycle and is
    not selected by any claim made afterwards. *)
Theorem delivered_not_claimed_again (w : Pg.World) (limit : Z) :
  calm w -> primary_key w -> 0 <= limit -> batch w limit <> [] ->
  exists w' tr,
    ProcessUnsentMessages Pg.ops limit w =
      (None, w', CallBegin :: CallQueryUnsent limit :: tr ++ [CallCommit]) /\
    forall k r ref, nth_error (batch w limit) k = Some r ->
      Pg.delivery (Pg.faults w) (Pg.sends w + k) = Ok ref ->
      Pg.exec_misses (Pg.faults w) (messages.ID r) = false ->
      (exists tm, In (Pg.set_outcome (Some ref) (Some tm) r) (Pg.rows w')) /\
      forall n, ~ In (messages.ID r) (map messages.ID (batch w' n)).
Proof.
  intros Hcalm Hpk Hl Hne.
  destruct (RunFacts.cycle_pg w limit Hcalm Hpk Hl Hne)
    as (w' & tr & E & _ & _ & _ & _ & _ & Hid & _ & Hset & _).
  exists w', tr. split; [exact E|].
  intros k r ref Hk Hd Hm. specialize (Hset k r Hk). unfold settled in Hset.
  rewrite Hd, Hm in Hset. destruct Hset as [tm Hin].
  split; [now exists tm|].
  intros n Hbad. apply in_map_iff in Hbad as (y & E' & Hy).
  pose proof (ClaimFacts.select_unsent_In _ _ _ _ Hy) as (Hy1 & Hy2 & _).
  simpl in Hy1.
  assert (y = Pg.set_outcome (Some ref) (Some tm) r) as ->; [|discriminate].
  apply (PgFacts.key_determines (Pg.rows w')); auto.
  unfold primary_key in Hpk. now rewrite Hid.
Qed.

Lemma delivered_not_claimed_again_witness :
  exists w' tr,
    ProcessUnsentMessages Pg.ops 3 (world_of three second_fails) =
      (None, w', CallBegin :: CallQueryUnsent 3 :: tr ++ [CallCommit]) /\
    forall k r ref, nth_error (batch (world_of three second_fails) 3) k = Some r ->
      Pg.delivery second_fails (0 + k) = Ok ref ->
      Pg.exec_misses second_fails (messages.ID r) = false ->
      (exists tm, In (Pg.set_outcome (Some ref) (Some tm) r) (Pg.rows w')) /\
      forall n, ~ In (messages.ID r) (map messages.ID (batch w' n)).
Proof.
  apply (delivered_not_claimed_again (world_of three second_fails) 3).
  - apply calm_world_of; reflexivity.
  - apply primary_key_three.
  - lia.
  - vm_compute. discriminate.
Defined.

(** X9: two transactions that claim one after the other while both are
    open get disjoint rows: what the first has claimed is skipped by the
    second, whatever the two limits. *)
Theorem claims_disjoint (w : Pg.World) (t : Pg.TxState) (limit1 limit2 : Z)
    (w1 w2 : Pg.World) (sel1 sel2 : list messages.Message) :
  Pg.tx w = Some t -> Pg.held t = [] ->
  ListAndLockUnsent Pg.ops limit1 w = (Ok sel1, w1, [CallQueryUnsent limit1]) ->
  ListAndLockUnsent Pg.ops limit2 (other_tx w1) = (Ok sel2, w2, [CallQueryUnsent limit2]) ->
  forall r1 r2, In r1 sel1 -> In r2 sel2 -> messages.ID r1 <> messages.ID r2.
Proof.
  intros Htx Hh H1 H2 r1 r2 Hr1 Hr2 E.
  unfold ListAndLockUnsent, bind, call, ret in H1, H2. simpl in H1, H2.
  unfold Pg.query_unsent in H1. rewrite Htx in H1.
  destruct (Pg.aborted t); [discriminate|].
  destruct (Pg.query_fault (Pg.faults w)); [discriminate|].
  destruct (limit1 <? 0); [discriminate|].
  destruct (Pg.scan_fault (Pg.faults w)); [discriminate|].
  destruct (Pg.iter_fault (Pg.faults w)); [discriminate|].
  simpl in H1. injection H1 as <- <-.
  unfold Pg.query_unsent, other_tx in H2. simpl in H2.
  destruct (Pg.query_fault (Pg.faults w)); [discriminate|].
  destruct (limit2 <? 0); [discriminate|].
  destruct (Pg.scan_fault (Pg.faults w)); [discriminate|].
  destruct (Pg.iter_fault (Pg.faults w)); [discriminate|].
  simpl in H2. injection H2 as <- _.
  apply ClaimFacts.select_unsent_In in Hr2 as (_ & _ & Hf).
  unfold Pg.free in Hf. simpl in Hf. rewrite orb_false_r in Hf.
  apply negb_true_iff, PgFacts.mem_false in Hf. apply Hf.
  apply in_or_app. right. rewrite Hh. simpl. rewrite RunFacts.filter_true.
  rewrite <- E. now apply in_map.
Qed.

Lemma claims_disjoint_witness :
  exists w1 w2,
    ListAndLockUnsent Pg.ops 2 (other_tx (world_of three faultless)) =
      (Ok [queued 1 10; queued 2 20], w1, [CallQueryUnsent 2]) /\
    ListAndLockUnsent Pg.ops 2 (other_tx w1) =
      (Ok [queued 3 30], w2, [CallQueryUnsent 2]) /\
    forall r1 r2, In r1 [queued 1 10; queued 2 20] -> In r2 [queued 3 30] ->
      messages.ID r1 <> messages.ID r2.
Proof.
  exists (snd (Pg.query_unsent 2 (other_tx (world_of three faultless)))).
  exists (snd (Pg.query_unsent 2
                 (other_tx (snd (Pg.query_unsent 2 (other_tx (world_of three faultless))))))).
  split; [reflexivity|]. split; [reflexivity|].
  apply (claims_disjoint (other_tx (world_of three faultless))
           (opened (world_of three faultless)) 2 2
           (snd (Pg.query_unsent 2 (other_tx (world_of three faultless))))
           (snd (Pg.query_unsent 2
                   (other_tx (snd (Pg.query_unsent 2 (other_tx (world_of three faultless))))))));
    reflexivity.
Defined.

(** ** The repository (env/postgres/messages) *)

Lemma ListSent_spec (w : Pg.World) (limit : Z) :
  Pg.list_fault (Pg.faults w) = None ->
  exists l tr,
    ListSent Pg.ops limit w = (Ok l, w, tr) /\
    StronglySorted created_le l /\
    (forall r, In r l -> In r (Pg.rows w) /\ messages.ProcessedAt r <> None) /\
    (limit <= 0 ->
     Permutation l (filter (fun r => negb (Pg.pending r)) (Pg.rows w))) /\
    (0 < limit ->
     Z.of_nat (List.length l) <= limit /\
     forall r x, In r l -> In x (Pg.rows w) -> messages.ProcessedAt x <> None ->
       ~ In x l -> created_le r x).
Proof.
  intros Hf.
  set (all := Pg.order_by_created (filter (fun r => negb (Pg.pending r)) (Pg.rows w))).
  assert (Hall : forall r, In r all -> In r (Pg.rows w) /\ messages.ProcessedAt r <> None).
  { intros r Hr. apply (Permutation_in _ (PgFacts.order_by_created_perm _)) in Hr.
    apply filter_In in Hr as [Hin Hp]. split; [exact Hin|].
    unfold Pg.pending in Hp. destruct (messages.ProcessedAt r); [discriminate | discriminate]. }
  unfold ListSent, bind, call, ret. simpl. unfold Pg.query_sent. rewrite Hf.
  destruct (Z.gtb_spec limit 0) as [Hpos|Hle]; simpl.
  - exists (firstn (Z.to_nat limit) all). eexists. split; [reflexivity|].
    split; [apply PgFacts.sorted_firstn, PgFacts.order_by_created_sorted|].
    split; [intros r Hr; apply Hall; now apply PgFacts.In_firstn in Hr|].
    split; [lia|]. intros _. split.
    + pose proof (firstn_le_length (Z.to_nat limit) all). lia.
    + intros r x Hr Hx Hc Hnot.
      assert (Hxa : In x all).
      { apply (Permutation_in _ (Permutation_sym (PgFacts.order_by_created_perm _))).
        apply filter_In. split; [exact Hx|]. unfold Pg.pending.
        destruct (messages.ProcessedAt x); [reflexivity | congruence]. }
      rewrite <- (firstn_skipn (Z.to_nat limit) all) in Hxa.
      apply in_app_or in Hxa as [Hxa|Hxa]; [contradiction|].
      apply (PgFacts.sorted_app_le (firstn (Z.to_nat limit) all)
               (skipn (Z.to_nat limit) all)); try assumption.
      rewrite firstn_skipn. apply PgFacts.order_by_created_sorted.
  - exists all. eexists. split; [reflexivity|].
    split; [apply PgFacts.order_by_created_sorted|].
    split; [exact Hall|]. split; [|lia].
    intros _. apply PgFacts.order_by_created_perm.
Qed.

(** X10: [ListSent] reads without writing.  Its rows are completed rows of
    the table in the order of their creation time.  With a limit of zero
    or less they are all the completed rows; with a positive limit they
    are at most that many, and a completed row left out is not older than
    any row returned. *)
Theorem ListSent_oldest_completed (w : Pg.World) (limit : Z) :
  Pg.list_fault (Pg.faults w) = None ->
  exists l tr,
    ListSent Pg.ops limit w = (Ok l, w, tr) /\
    StronglySorted created_le l /\
    (forall r, In r l -> In r (Pg.rows w) /\ messages.ProcessedAt r <> None) /\
    (limit <= 0 ->
     Permutation l (filter (fun r => negb (Pg.pending r)) (Pg.rows w))) /\
    (0 < limit ->
     Z.of_nat (List.length l) <= limit /\
     forall r x, In r l -> In x (Pg.rows w) -> messages.ProcessedAt x <> None ->
       ~ In x l -> created_le r x).
Proof.
  intros Hf. destruct (ListSent_spec w limit Hf) as (l & tr & H).
  exists l, tr. exact H.
Qed.

Lemma ListSent_oldest_completed_witness :
  exists l tr,
    ListSent Pg.ops 1
      (world_of [Pg.set_outcome (Some "b") (Some 7) (queued 2 20); queued 3 30;
                 Pg.set_outcome (Some "a") (Some 5) (queued 1 10)] faultless) =
      (Ok l,
       world_of [Pg.set_outcome (Some "b") (Some 7) (queued 2 20); queued 3 30;
                 Pg.set_outcome (Some "a") (Some 5) (queued 1 10)] faultless, tr) /\
    l = [Pg.set_outcome (Some "a") (Some 5) (queued 1 10)].
Proof.
  destruct (ListSent_oldest_completed
              (world_of [Pg.set_outcome (Some "b") (Some 7) (queued 2 20); queued 3 30;
                         Pg.set_outcome (Some "a") (Some 5) (queued 1 10)] faultless) 1)
    as (l & tr & E & _); [reflexivity|].
  exists l, tr. split; [exact E|].
  vm_compute in E. injection E as <- _. reflexivity.
Defined.

Lemma toPostgres_toDomain_list (l : list messages.Message) :
  map toPostgres (ToDomainSlice l) = l.
Proof.
  unfold ToDomainSlice. rewrite map_map. induction l as [|[i p c t a b] l IH]; simpl;
    [reflexivity | now rewrite IH].
Qed.

Lemma GetSentMessages_spec (w : Pg.World) :
  Pg.list_fault (Pg.faults w) = None ->
  exists msgs,
    GetSentMessages Pg.ops w = (Ok msgs, w, [CallQuerySent None]) /\
    Permutation (map toPostgres msgs)
      (filter (fun r => negb (Pg.pending r)) (Pg.rows w)) /\
    StronglySorted created_le (map toPostgres msgs) /\
    forall m, In m msgs -> ProcessedAt m <> None.
Proof.
  intros Hf.
  destruct (ListSent_spec w 0 Hf) as (l & tr & E & Hs & Hin & Hall & _).
  exists (ToDomainSlice l).
  assert (Htr : tr = [CallQuerySent None]).
  { unfold ListSent, bind, call, ret in E. simpl in E.
    destruct (Pg.query_sent None w) as [[e|e|e|rs] w0]; simpl in E;
      injection E as _ _ <-; reflexivity. }
  subst tr. split.
  { unfold GetSentMessages, bind. rewrite E. reflexivity. }
  rewrite toPostgres_toDomain_list.
  split; [apply Hall; lia|]. split; [exact Hs|].
  intros m Hm. unfold ToDomainSlice in Hm. apply in_map_iff in Hm as (r & <- & Hr).
  simpl. now apply Hin.
Qed.

(** X11: [GetSentMessages] returns, as domain messages, exactly the
    completed rows of the table, oldest first, and never a pending one; it
    changes nothing and makes one query, without a [LIMIT]. *)
Theorem GetSentMessages_all_completed (w : Pg.World) :
  Pg.list_fault (Pg.faults w) = None ->
  exists msgs,
    GetSentMessages Pg.ops w = (Ok msgs, w, [CallQuerySent None]) /\
    Permutation (map toPostgres msgs)
      (filter (fun r => negb (Pg.pending r)) (Pg.rows w)) /\
    StronglySorted created_le (map toPostgres msgs) /\
    forall m, In m msgs -> ProcessedAt m <> None.
Proof.
  intros Hf. destruct (GetSentMessages_spec w Hf) as (msgs & H).
  exists msgs. exact H.
Qed.

Lemma GetSentMessages_all_completed_witness :
  exists msgs,
    GetSentMessages Pg.ops
      (world_of [Pg.set_outcome (Some "b") (Some 7) (queued 2 20); queued 3 30;
                 Pg.set_outcome (Some "a") (Some 5) (queued 1 10)] faultless) =
      (Ok msgs,
       world_of [Pg.set_outcome (Some "b") (Some 7) (queued 2 20); queued 3 30;
                 Pg.set_outcome (Some "a") (Some 5) (queued 1 10)] faultless,
       [CallQuerySent None]) /\
    map ID msgs = [1; 2].
Proof.
  destruct (GetSentMessages_all_completed
              (world_of [Pg.set_outcome (Some "b") (Some 7) (queued 2 20); queued 3 30;
                         Pg.set_outcome (Some "a") (Some 5) (queued 1 10)] faultless))
    as (msgs & E & _); [reflexivity|].
  exists msgs. split; [exact E|].
  vm_compute in E. injection E as <-. reflexivity.
Defined.

Lemma update_misses (id : Z) (b : bool) (f : messages.Message -> messages.Message)
    (wk : list messages.Message) :
  (forall r, In r wk -> messages.ID r <> id) ->
  map (fun r => if (messages.ID r =? id) && b then f r else r) wk = wk.
Proof.
  induction wk as [|x wk IH]; simpl; intros Hno; [reflexivity|].
  assert (Hx : (messages.ID x =? id) = false).
  { apply Z.eqb_neq, Hno. now left. }
  rewrite Hx. simpl. f_equal. apply IH. intros r Hr. apply Hno. now right.
Qed.

(** X12: [UpdateWithTx] for an id that no row of the table has returns the
    not-found error and leaves the store, the transaction included, as it
    was. *)
Theorem UpdateWithTx_missing_id (w : Pg.World) (t : Pg.TxState) (id : Z)
    (messageID : option string) (processedAt : option Time) :
  Pg.tx w = Some t -> Pg.aborted t = false ->
  Pg.exec_fault (Pg.faults w) id = None ->
  (forall r, In r (Pg.work t) -> messages.ID r <> id) ->
  UpdateWithTx Pg.ops id messageID processedAt w =
    (Some (not_found id), w, [CallExecUpdate id messageID processedAt]).
Proof.
  intros Htx Hab Hex Hno.
  destruct w as [rs nv lk tx0 sn rd f]; destruct t as [wk hd ab]; simpl in *; subst.
  unfold UpdateWithTx, bind, call, ret. simpl. unfold Pg.exec_update. simpl.
  rewrite Hex.
  rewrite (ClaimFacts.filter_nothing _ wk).
  2:{ intros r Hr. apply Hno, Z.eqb_neq in Hr. now rewrite Hr. }
  rewrite (update_misses id _ _ wk Hno). reflexivity.
Qed.

Lemma UpdateWithTx_missing_id_witness :
  UpdateWithTx Pg.ops 9 (Some "ref") (Some 5) (other_tx (world_of three faultless)) =
    (Some (not_found 9), other_tx (world_of three faultless),
     [CallExecUpdate 9 (Some "ref") (Some 5)]).
Proof.
  apply (UpdateWithTx_missing_id (other_tx (world_of three faultless))
           (opened (world_of three faultless)) 9 (Some "ref") (Some 5));
    try reflexivity.
  intros r Hr. simpl in Hr. destruct Hr as [<-|[<-|[<-|[]]]]; discriminate.
Defined.




(** ** Creation *)

Lemma CreateMessage_cases (w : Pg.World) (phone content : string) :
  let now := Pg.clock (Pg.faults w) (Pg.reads w) in
  let at_row := if IsZero now then Pg.clock (Pg.faults w) (S (Pg.reads w)) else now in
  let row := {| messages.ID := Pg.nextval w; messages.PhoneNumber := phone;
                messages.Content := content; messages.CreatedAt := at_row;
                messages.MessageID := None; messages.ProcessedAt := None |} in
  exists res w' tr,
    CreateMessage Pg.ops phone content w = (res, w', tr) /\
    Pg.tx w' = Pg.tx w /\ Pg.locked w' = Pg.locked w /\ Pg.faults w' = Pg.faults w /\
    ((exists e, res = Err e /\ Pg.rows w' = Pg.rows w /\ Pg.nextval w' = Pg.nextval w /\
                (Validate (draft phone content) <> None \/
                 Pg.insert_fault (Pg.faults w) <> None)) \/
     (Validate (draft phone content) = None /\ Pg.insert_fault (Pg.faults w) = None /\
      res = Ok {| ID := Pg.nextval w; PhoneNumber := phone; Content := content;
                  CreatedAt := now; MessageID := None; ProcessedAt := None |} /\
      Pg.rows w' = (Pg.rows w ++ [row])%list /\ Pg.nextval w' = Pg.nextval w + 1 /\
      tr = [CallInsert phone content at_row])).
Proof.
  intros now at_row row.
  destruct w as [rs nv lk tx0 sn rd f]. simpl in *.
  unfold CreateMessage, Create, bind, quiet, call, ret. simpl.
  change (Validate {| ID := 0; PhoneNumber := phone; Content := content;
                      CreatedAt := Pg.clock f rd; MessageID := None;
                      ProcessedAt := None |})
    with (Validate (draft phone content)).
  destruct (Validate (draft phone content)) as [e|] eqn:Ev.
  { do 3 eexists. split; [reflexivity|]. simpl. repeat split; try reflexivity.
    left. eexists. repeat split; try reflexivity. left. discriminate. }
  subst now at_row row. simpl.
  destruct (IsZero (Pg.clock f rd)) eqn:Ez; simpl; unfold Pg.insert; simpl;
    destruct (Pg.insert_fault f) as [ei|] eqn:Ei; simpl;
    do 3 eexists; (split; [reflexivity|]); simpl; repeat split; try reflexivity;
    try (left; eexists; repeat split; try reflexivity; right; discriminate);
    right; repeat split; reflexivity.
Qed.

(** X14: [CreateMessage] with a valid phone number and content, on a
    connection that does not fail, appends one pending row to the table:
    its id is the next value of the sequence, which advances by one, its
    reference and its completion time are null, and the rows already there
    are untouched; the message returned carries that id. *)
Theorem CreateMessage_appends_pending (w : Pg.World) (phone content : string) :
  phone_number_like phone -> content <> EmptyString ->
  len content <= MaxContentLength ->
  Pg.insert_fault (Pg.faults w) = None ->
  exists msg w' row tr,
    CreateMessage Pg.ops phone content w = (Ok msg, w', tr) /\
    ID msg = Pg.nextval w /\ PhoneNumber msg = phone /\ Content msg = content /\
    MessageID msg = None /\ ProcessedAt msg = None /\
    Pg.rows w' = (Pg.rows w ++ [row])%list /\
    toDomain row = {| ID := ID msg; PhoneNumber := phone; Content := content;
                      CreatedAt := messages.CreatedAt row;
                      MessageID := None; ProcessedAt := None |} /\
    Pg.nextval w' = Pg.nextval w + 1.
Proof.
  intros Hp Hc Hl Hi.
  destruct (CreateMessage_cases w phone content)
    as (res & w' & tr & E & _ & _ & _ & [(e & _ & _ & _ & [Hbad|Hbad]) | H]).
  - exfalso. apply Hbad. apply Validate_None_iff. simpl. tauto.
  - contradiction.
  - destruct H as (_ & _ & -> & Hrows & Hnext & _).
    do 4 eexists. split; [exact E|]. simpl.
    repeat split; try reflexivity; try eassumption.
    reflexivity.
Qed.

Lemma CreateMessage_appends_pending_witness :
  exists msg w' row tr,
    CreateMessage Pg.ops "+1234567890" "hello" (world_of three faultless) = (Ok msg, w', tr) /\
    ID msg = 100 /\ Pg.rows w' = (three ++ [row])%list /\ Pg.nextval w' = 101.
Proof.
  destruct (CreateMessage_appends_pending (world_of three faultless) "+1234567890" "hello")
    as (msg & w' & row & tr & E & H1 & _ & _ & _ & _ & H2 & _ & H3).
  - apply RegexpFacts.phoneRegex_matches. reflexivity.
  - discriminate.
  - vm_compute. discriminate.
  - reflexivity.
  - exists msg, w', row, tr. repeat split; assumption.
Defined.

Lemma key_snoc (l : list messages.Message) (r : messages.Message) (n : Z) :
  NoDup (map messages.ID l) -> (forall x, In x l -> messages.ID x < n) ->
  messages.ID r = n -> NoDup (map messages.ID (l ++ [r])).
Proof.
  intros Hnd Hb Hr. rewrite map_app. simpl.
  apply NoDup_app; [exact Hnd | repeat constructor; simpl; tauto |].
  intros i Hi [<-|[]]. apply in_map_iff in Hi as (x & E & Hx).
  specialize (Hb x Hx). lia.
Qed.

(** X15: [CreateMessage] keeps the table well-formed whatever its outcome:
    rows are only appended, never changed or removed; if every id in the
    table is below the sequence and no id occurs twice, the same holds
    afterwards; and transactions and locks are not touched. *)
Theorem CreateMessage_keeps_key (w w' : Pg.World) (phone content : string)
    (res : result Message) (tr : list Call) :
  ids_below w -> primary_key w ->
  CreateMessage Pg.ops phone content w = (res, w', tr) ->
  ids_below w' /\ primary_key w' /\
  (exists added, Pg.rows w' = (Pg.rows w ++ added)%list /\
                 (List.length added <= 1)%nat) /\
  Pg.tx w' = Pg.tx w /\ Pg.locked w' = Pg.locked w.
Proof.
  intros Hb Hk Hrun.
  destruct (CreateMessage_cases w phone content)
    as (res0 & w0 & tr0 & E & Htx & Hlk & _ & H).
  rewrite E in Hrun. injection Hrun as <- <- <-.
  unfold ids_below, primary_key in *.
  destruct H as [(e & _ & Hr & Hn & _) | (_ & _ & _ & Hr & Hn & _)].
  - rewrite Hr, Hn. repeat split; try assumption.
    exists []. rewrite app_nil_r. split; [reflexivity | simpl; lia].
  - rewrite Hr, Hn. split; [|split; [|split; [|split; assumption]]].
    + intros r Hin. apply in_app_or in Hin as [Hin|[<-|[]]].
      * specialize (Hb r Hin). lia.
      * simpl. lia.
    + apply (key_snoc _ _ (Pg.nextval w)); [assumption | assumption | reflexivity].
    + eexists. split; [reflexivity | simpl; lia].
Qed.

Lemma ids_below_three : ids_below (world_of three faultless).
Proof.
  intros r Hr. simpl in Hr. destruct Hr as [<-|[<-|[<-|[]]]]; simpl; lia.
Qed.

Lemma CreateMessage_keeps_key_witness :
  exists w',
    ids_below w' /\ primary_key w' /\
    (exists added, Pg.rows w' = (three ++ added)%list /\ (List.length added <= 1)%nat).
Proof.
  exists (snd (fst (CreateMessage Pg.ops "+1234567890" "hello" (world_of three faultless)))).
  destruct (CreateMessage_keeps_key (world_of three faultless)
              (snd (fst (CreateMessage Pg.ops "+1234567890" "hello" (world_of three faultless))))
              "+1234567890" "hello"
              (fst (fst (CreateMessage Pg.ops "+1234567890" "hello" (world_of three faultless))))
              (snd (CreateMessage Pg.ops "+1234567890" "hello" (world_of three faultless))))
    as (H1 & H2 & H3 & _).
  - apply ids_below_three.
  - apply primary_key_three.
  - vm_compute. reflexivity.
  - repeat split; assumption.
Defined.



Lemma In_order_by_created (l : list messages.Message) (r : messages.Message) :
  In r (Pg.order_by_created l) <-> In r l.
Proof.
  split; apply Permutation_in;
    [apply PgFacts.order_by_created_perm
    | apply Permutation_sym, PgFacts.order_by_created_perm].
Qed.

Lemma length_order_by_created (l : list messages.Message) :
  List.length (Pg.order_by_created l) = List.length l.
Proof. apply Permutation_length, PgFacts.order_by_created_perm. Qed.

(** X17: a message that was created is pending: a claim whose limit is
    not below the number of rows selects its row, provided no open
    transaction holds the new id; and [GetSentMessages] does not list it
    while no cycle has completed it. *)
Theorem created_is_claimed (w : Pg.World) (phone content : string) (n : Z) :
  phone_number_like phone -> content <> EmptyString ->
  len content <= MaxContentLength ->
  Pg.insert_fault (Pg.faults w) = None -> Pg.list_fault (Pg.faults w) = None ->
  ids_below w -> ~ In (Pg.nextval w) (Pg.locked w) ->
  Z.of_nat (List.length (Pg.rows w)) < n ->
  exists msg w' tr,
    CreateMessage Pg.ops phone content w = (Ok msg, w', tr) /\
    In (ID msg) (map messages.ID (batch w' n)) /\
    forall sent w2 tr2, GetSentMessages Pg.ops w' = (Ok sent, w2, tr2) ->
      ~ In (ID msg) (map ID sent).
Proof.
  intros Hp Hc Hl Hi Hlf Hb Hfree Hn.
  destruct (CreateMessage_cases w phone content)
    as (res & w' & tr & E & _ & Hlk & Hf & [(e & _ & _ & _ & [Hbad|Hbad]) | H]).
  - exfalso. apply Hbad. apply Validate_None_iff. simpl. tauto.
  - contradiction.
  - destruct H as (_ & _ & -> & Hrows & Hnext & _).
    do 3 eexists. split; [exact E|]. simpl. split.
    + apply in_map_iff. eexists. split; [|
        unfold batch, Pg.select_unsent; rewrite firstn_all2;
        [apply In_order_by_created, filter_In; split;
          [simpl; rewrite Hrows; apply in_or_app; right; left; reflexivity|]|]].
      * reflexivity.
      * simpl. unfold Pg.free. simpl. rewrite Hlk, orb_false_r.
        apply negb_true_iff, PgFacts.mem_false. exact Hfree.
      * rewrite length_order_by_created.
        etransitivity; [apply filter_length_le|].
        simpl. rewrite Hrows, length_app. simpl. lia.
    + intros sent w2 tr2 Hget Hin.
      destruct (GetSentMessages_spec w') as (msgs & Eg & Hperm & _ & _);
        [now rewrite Hf|].
      rewrite Eg in Hget. injection Hget as <- _ _.
      apply in_map_iff in Hin as (m & Em & Hm).
      assert (Hm' : In (toPostgres m) (map toPostgres msgs)) by now apply in_map.
      apply (Permutation_in _ Hperm) in Hm'. apply filter_In in Hm' as [Hrow Hdone].
      rewrite Hrows in Hrow. apply in_app_or in Hrow as [Hrow|[Hrow|[]]].
      * specialize (Hb _ Hrow). destruct m; simpl in *. lia.
      * rewrite <- Hrow in Hdone. discriminate.
Qed.

Lemma created_is_claimed_witness :
  exists msg w' tr,
    CreateMessage Pg.ops "+1234567890" "hello" (world_of three faultless) = (Ok msg, w', tr) /\
    In (ID msg) (map messages.ID (batch w' 5)).
Proof.
  destruct (created_is_claimed (world_of three faultless) "+1234567890" "hello" 5)
    as (msg & w' & tr & E & H & _).
  - apply RegexpFacts.phoneRegex_matches. reflexivity.
  - discriminate.
  - vm_compute. discriminate.
  - reflexivity.
  - reflexivity.
  - apply ids_below_three.
  - simpl. tauto.
  - simpl. lia.
  - exists msg, w', tr. split; assumption.
Defined.

(** ** The trigger: start, stop and the wait group *)

Lemma Start_in_range (Task : Type) (c : scheduler.Client Task) (t : Task) (n : Z) :
  - MaxMinutes <= n <= MaxMinutes ->
  (0 < n ->
   exists c', scheduler.Start c t n = scheduler.Returned c' /\
     scheduler.interval c' = n * scheduler.Minute /\
     scheduler.ticker c' = Some true /\ scheduler.ctx c' = Some false /\
     scheduler.loops c' = (scheduler.loops c ++ [scheduler.Firing])%list /\
     scheduler.wg c' = S (scheduler.wg c)) /\
  (n <= 0 ->
   exists c', scheduler.Start c t n = scheduler.Panicked c' /\
     scheduler.loops c' = scheduler.loops c /\ scheduler.wg c' = scheduler.wg c /\
     scheduler.ticker c' = scheduler.ticker c).
Proof.
  intros Hr. unfold MaxMinutes in Hr.
  assert (Hw : scheduler.wrap64 (n * scheduler.Minute) = n * scheduler.Minute).
  { unfold scheduler.wrap64, scheduler.Minute.
    rewrite Z.mod_small; [lia|]. change (2 ^ 63) with 9223372036854775808.
    change (2 ^ 64) with 18446744073709551616. lia. }
  unfold scheduler.Start. rewrite Hw. split.
  - intros Hp. destruct (Z.leb_spec (n * scheduler.Minute) 0) as [H|H].
    + unfold scheduler.Minute in H. lia.
    + eexists. split; [reflexivity|]. simpl. repeat split; reflexivity.
  - intros Hn. destruct (Z.leb_spec (n * scheduler.Minute) 0) as [H|H].
    + eexists. split; [reflexivity|]. simpl. repeat split; reflexivity.
    + unfold scheduler.Minute in H. lia.
Qed.

(** X18: for a number of minutes whose duration fits 64 bits, [Start]
    returns exactly when the number is positive; it then records the
    interval, a live ticker and a fresh context, and starts one more loop.
    For zero and negative numbers it panics in [time.NewTicker], and so it
    does for the first positive number whose duration overflows. *)
Theorem Start_returns_iff_positive (Task : Type) (c : scheduler.Client Task)
    (t : Task) (n : Z) :
  - MaxMinutes <= n <= MaxMinutes ->
  (0 < n ->
   exists c', scheduler.Start c t n = scheduler.Returned c' /\
     scheduler.interval c' = n * scheduler.Minute /\
     scheduler.ticker c' = Some true /\ scheduler.ctx c' = Some false /\
     scheduler.loops c' = (scheduler.loops c ++ [scheduler.Firing])%list /\
     scheduler.wg c' = S (scheduler.wg c)) /\
  (n <= 0 ->
   exists c', scheduler.Start c t n = scheduler.Panicked c' /\
     scheduler.loops c' = scheduler.loops c /\ scheduler.wg c' = scheduler.wg c /\
     scheduler.ticker c' = scheduler.ticker c) /\
  (exists c', scheduler.Start c t (MaxMinutes + 1) = scheduler.Panicked c').
Proof.
  intros Hr. destruct (Start_in_range Task c t n Hr) as [Hpos Hneg].
  split; [exact Hpos|]. split; [exact Hneg|].
  eexists. vm_compute. reflexivity.
Qed.

Lemma Start_returns_iff_positive_witness :
  exists c', scheduler.Start (scheduler.Run unit) tt 2 = scheduler.Returned c' /\
    scheduler.interval c' = 2 * scheduler.Minute /\
    scheduler.loops c' = [scheduler.Firing].
Proof.
  destruct (Start_returns_iff_positive unit (scheduler.Run unit) tt 2) as (H & _).
  - unfold MaxMinutes. lia.
  - destruct H as (c' & E & Hi & _ & _ & Hl & _); [lia|].
    exists c'. repeat split; assumption.
Defined.

Module WaitFacts.
Import scheduler SchedulerFacts.

Section Counted.
Variable Task : Type.

(** The wait group counts the loops, and a loop has a context to watch. *)
Lemma counted_step (e : Event Task) (c c' : Client Task) :
  wg c = List.length (loops c) /\ (loops c = [] \/ ctx c <> None) ->
  step e c = Some c' ->
  wg c' = List.length (loops c') /\ (loops c' = [] \/ ctx c' <> None).
Proof.
  intros [Hw Hc] Hs. destruct e as [t n| | |i|i|i|i]; simpl in Hs.
  - destruct (mu c); [discriminate|]. unfold Start in Hs.
    destruct (wrap64 (n * Minute) <=? 0); injection Hs as <-; simpl.
    + split; [exact Hw | right; discriminate].
    + rewrite length_app. simpl. split; [lia | right; discriminate].
  - destruct (mu c); [discriminate|]. injection Hs as <-. simpl.
    split; [exact Hw|]. destruct Hc as [Hc|Hc]; [now left | right].
    destruct (ctx c); [discriminate | contradiction].
  - destruct (mu c); [|discriminate]. unfold Stop_return in Hs.
    destruct (wg c); [|discriminate]. injection Hs as <-. simpl. split; assumption.
  - destruct (nth_error (loops c) i) as [[| |]|] eqn:En; try discriminate.
    injection Hs as <-. unfold processTask_enter.
    destruct (taskRunning c); simpl; rewrite length_update;
      (split; [exact Hw | right]); destruct Hc as [Hc|Hc]; try assumption;
      rewrite Hc in En; destruct i; discriminate.
  - destruct (nth_error (loops c) i) as [[| |]|] eqn:En; try discriminate.
    injection Hs as <-. simpl. rewrite length_update.
    split; [exact Hw | right]. destruct Hc as [Hc|Hc]; try assumption.
    rewrite Hc in En. destruct i; discriminate.
  - destruct (nth_error (loops c) i) as [[| |]|] eqn:En; try discriminate.
    injection Hs as <-. simpl. rewrite length_update.
    split; [exact Hw | right]. destruct Hc as [Hc|Hc]; try assumption.
    rewrite Hc in En. destruct i; discriminate.
  - destruct (nth_error (loops c) i) as [[| |]|] eqn:En; try discriminate.
    destruct (ctx c) as [[|]|] eqn:Ec; try discriminate.
    injection Hs as <-. simpl. rewrite (length_remove _ _ _ En), Hw.
    split; [reflexivity | right]. rewrite Ec. discriminate.
Qed.

Lemma counted_exec (es : list (Event Task)) : forall c c',
  wg c = List.length (loops c) /\ (loops c = [] \/ ctx c <> None) ->
  exec es c = Some c' ->
  wg c' = List.length (loops c') /\ (loops c' = [] \/ ctx c' <> None).
Proof.
  induction es as [|e es IH]; intros c c' Hinv He; simpl in He.
  - injection He as <-. exact Hinv.
  - destruct (step e c) as [c1|] eqn:Es; [|discriminate].
    apply (IH c1); [now apply (counted_step e c) | exact He].
Qed.

Lemma counted_Run :
  wg (Run Task) = List.length (loops (Run Task)) /\
  (loops (Run Task) = [] \/ ctx (Run Task) <> None).
Proof. split; [reflexivity | now left]. Qed.
End Counted.
End WaitFacts.

(** X19: in every state that the trigger reaches, the wait group counts
    the live loops; hence when [Stop] returns, no loop of the trigger is
    left, no invocation of the task is in progress and the guard is free:
    no invocation outlives a completed [Stop]. *)
Theorem Stop_returns_after_loops (Task : Type) (es : list (scheduler.Event Task))
    (c c' : scheduler.Client Task) :
  scheduler.exec es (scheduler.Run Task) = Some c ->
  scheduler.step scheduler.EvStopped c = Some c' ->
  scheduler.wg c = List.length (scheduler.loops c) /\
  scheduler.loops c' = [] /\ scheduler.invocations c' = 0%nat /\
  scheduler.taskRunning c' = false /\ scheduler.mu c' = false.
Proof.
  intros He Hs.
  pose proof (WaitFacts.counted_exec Task es _ _ (WaitFacts.counted_Run Task) He) as [Hw _].
  pose proof (SchedulerFacts.guarded_exec Task es _ _ (SchedulerFacts.guarded_Run Task) He)
    as Hg.
  split; [exact Hw|]. simpl in Hs. destruct (scheduler.mu c); [|discriminate].
  unfold scheduler.Stop_return in Hs.
  destruct (scheduler.wg c) eqn:Ew; [|discriminate]. injection Hs as <-. simpl.
  assert (Hnil : scheduler.loops c = []).
  { destruct (scheduler.loops c); [reflexivity | discriminate]. }
  unfold guarded, busy in Hg. rewrite Hnil in Hg. simpl in Hg.
  unfold scheduler.invocations. simpl. rewrite Hnil. simpl.
  repeat split; try reflexivity. destruct (scheduler.taskRunning c); [discriminate | reflexivity].
Qed.

Lemma Stop_returns_after_loops_witness :
  exists c c',
    scheduler.exec [scheduler.EvStart tt 1; scheduler.EvFire 0; scheduler.EvStop;
                    scheduler.EvDone 0; scheduler.EvQuit 0] (scheduler.Run unit) = Some c /\
    scheduler.step scheduler.EvStopped c = Some c' /\
    scheduler.loops c' = [] /\ scheduler.invocations c' = 0%nat.
Proof.
  eexists. eexists. split; [vm_compute; reflexivity|]. split; [vm_compute; reflexivity|].
  match goal with |- scheduler.loops ?c' = [] /\ _ =>
    destruct (Stop_returns_after_loops unit
                [scheduler.EvStart tt 1; scheduler.EvFire 0; scheduler.EvStop;
                 scheduler.EvDone 0; scheduler.EvQuit 0] _ c' eq_refl eq_refl)
      as (_ & H1 & H2 & _)
  end.
  split; assumption.
Defined.

(** X20: [Stop] on a trigger without a loop, started before or not,
    returns at once and changes nothing but the state of the ticker and of
    the context; a second [Stop] changes nothing at all. *)
Theorem Stop_idempotent (Task : Type) (c : scheduler.Client Task) :
  scheduler.wg c = 0%nat -> scheduler.mu c = false ->
  exists c1,
    scheduler.exec [scheduler.EvStop; scheduler.EvStopped] c = Some c1 /\
    scheduler.exec [scheduler.EvStop; scheduler.EvStopped] c1 = Some c1 /\
    scheduler.loops c1 = scheduler.loops c /\
    scheduler.taskRunning c1 = scheduler.taskRunning c /\
    scheduler.task c1 = scheduler.task c /\
    scheduler.interval c1 = scheduler.interval c /\
    scheduler.wg c1 = 0%nat /\ scheduler.mu c1 = false.
Proof.
  intros Hw Hm. destruct c as [tk iv tc cx m w r ls]. simpl in *. subst.
  unfold scheduler.Stop_signal, scheduler.Stop_return. simpl.
  eexists. split; [reflexivity|]. simpl.
  split; [destruct tc, cx; reflexivity|]. repeat split; reflexivity.
Qed.

Lemma Stop_idempotent_witness :
  exists c1,
    scheduler.exec [scheduler.EvStop; scheduler.EvStopped] (scheduler.Run unit) = Some c1 /\
    scheduler.exec [scheduler.EvStop; scheduler.EvStopped] c1 = Some c1.
Proof.
  destruct (Stop_idempotent unit (scheduler.Run unit)) as (c1 & H1 & H2 & _);
    [reflexivity | reflexivity |].
  exists c1. split; assumption.
Defined.

Module DrainFacts.
Import scheduler.


End DrainFacts.



(** ** Configuration (env/config) *)

Module ConfigFacts.
Import config.

Lemma digits_all (s : string) : forall acc v,
  digits acc s = Some v -> all_digits s = true.
Proof.
  induction s as [|c s IH]; intros acc v H; simpl in *; [reflexivity|].
  unfold is_digit. destruct (Regexp.in_range "0" "9" c); [|discriminate].
  simpl. eapply IH. exact H.
Qed.

(** What [Atoi] accepts is an optionally signed string of digits, and its
    value is within the range of [int]. *)
Lemma Atoi_numeral (s : string) (v : Z) :
  Atoi s = Some v ->
  (exists sign body,
     s = sign ++ body /\ (sign = EmptyString \/ sign = "+" \/ sign = "-") /\
     body <> EmptyString /\ all_digits body = true) /\
  - 2 ^ 63 <= v <= 2 ^ 63 - 1.
Proof.
  unfold Atoi. destruct s as [|c t]; [discriminate|].
  set (body := if (Ascii.eqb c "-" || Ascii.eqb c "+")%bool then t else String c t).
  destruct (is_empty body) eqn:Eb; [discriminate|].
  destruct (digits 0 body) as [d|] eqn:Ed; [|discriminate].
  match goal with |- context [if ?b then Some _ else None] => destruct b eqn:Er end;
    [|discriminate].
  intros H. injection H as <-. apply andb_true_iff in Er as [H1 H2].
  apply Z.leb_le in H1, H2. split; [|split; assumption].
  assert (Hne : body <> EmptyString).
  { intros E. rewrite E in Eb. discriminate. }
  pose proof (digits_all _ _ _ Ed) as Hd.
  subst body.
  destruct (Ascii.eqb_spec c "-") as [->|Hm]; simpl in *.
  - exists "-", t. repeat split; auto.
  - destruct (Ascii.eqb_spec c "+") as [->|Hp]; simpl in *.
    + exists "+", t. repeat split; auto.
    + exists EmptyString, (String c t). repeat split; auto.
Qed.

Lemma getEnvAsInt_cases (env : Env) (key : string) (d : Z) :
  getEnvAsInt env key d = d \/
  ((exists sign body,
      env key = sign ++ body /\ (sign = EmptyString \/ sign = "+" \/ sign = "-") /\
      body <> EmptyString /\ all_digits body = true) /\
   - 2 ^ 63 <= getEnvAsInt env key d <= 2 ^ 63 - 1).
Proof.
  unfold getEnvAsInt. destruct (is_empty (env key)); [now left|].
  destruct (Atoi (env key)) as [v|] eqn:E; [right | now left].
  now apply Atoi_numeral.
Qed.

Lemma Load_positive (env : Env) (cfg : Config) :
  Load env = Ok cfg -> 0 < SchedulerIntervalMinutes cfg /\ 0 < MessageBatchSize cfg.
Proof.
  unfold Load, Validate. simpl.
  destruct (is_empty (getEnv env "DATABASE_URL" EmptyString)); [discriminate|].
  destruct (is_empty (getEnv env "WEBHOOK_URL" EmptyString)); [discriminate|].
  destruct (is_empty (getEnv env "WEBHOOK_AUTH_KEY" EmptyString)); [discriminate|].
  destruct (Z.leb_spec (getEnvAsInt env "SCHEDULER_INTERVAL_MINUTES" 2) 0) as [|H4];
    [discriminate|].
  destruct (Z.leb_spec (getEnvAsInt env "MESSAGE_BATCH_SIZE" 2) 0) as [|H5];
    [discriminate|].
  intros H. injection H as <-. simpl. split; assumption.
Qed.
End ConfigFacts.

(** X22: [getEnvAsInt] returns the default for every value of the variable
    that is not an optionally signed string of decimal digits (the unset
    variable included); otherwise the value it returns is within the range
    of a 64-bit integer. *)
Theorem getEnvAsInt_numeral_or_default (env : config.Env) (key : string) (d : Z) :
  config.getEnvAsInt env key d = d \/
  ((exists sign body,
      env key = sign ++ body /\ (sign = EmptyString \/ sign = "+" \/ sign = "-") /\
      body <> EmptyString /\ all_digits body = true) /\
   - 2 ^ 63 <= config.getEnvAsInt env key d <= 2 ^ 63 - 1).
Proof.
  destruct (ConfigFacts.getEnvAsInt_cases env key d) as [H|[H1 H2]].
  - left. exact H.
  - right. split; [exact H1 | exact H2].
Qed.

(** X23: a configuration that [Load] returns has a database address, a
    webhook address and a webhook key that are not empty, a server port
    that is not empty, and an interval and a batch size that are positive
    and within the range of a 64-bit integer. *)
Theorem Load_returns_valid (env : config.Env) (cfg : config.Config) :
  config.Load env = Ok cfg ->
  config.DatabaseURL cfg = env "DATABASE_URL" /\
  config.DatabaseURL cfg <> EmptyString /\
  config.WebhookURL cfg <> EmptyString /\
  config.WebhookAuthKey cfg <> EmptyString /\
  config.ServerPort cfg <> EmptyString /\
  0 < config.SchedulerIntervalMinutes cfg <= 2 ^ 63 - 1 /\
  0 < config.MessageBatchSize cfg <= 2 ^ 63 - 1.
Proof.
  unfold config.Load, config.Validate. simpl.
  destruct (is_empty (config.getEnv env "DATABASE_URL" EmptyString)) eqn:E1; [discriminate|].
  destruct (is_empty (config.getEnv env "WEBHOOK_URL" EmptyString)) eqn:E2; [discriminate|].
  destruct (is_empty (config.getEnv env "WEBHOOK_AUTH_KEY" EmptyString)) eqn:E3;
    [discriminate|].
  destruct (Z.leb_spec (config.getEnvAsInt env "SCHEDULER_INTERVAL_MINUTES" 2) 0) as [|H4];
    [discriminate|].
  destruct (Z.leb_spec (config.getEnvAsInt env "MESSAGE_BATCH_SIZE" 2) 0) as [|H5];
    [discriminate|].
  intros H. injection H as <-. simpl.
  assert (Hne : forall s, is_empty s = false -> s <> EmptyString).
  { intros s Hs E. rewrite E in Hs. discriminate. }
  split.
  { unfold config.getEnv in *. destruct (is_empty (env "DATABASE_URL")); [discriminate|].
    reflexivity. }
  split; [now apply Hne|]. split; [now apply Hne|]. split; [now apply Hne|].
  split.
  { unfold config.getEnv. destruct (is_empty (env "SERVER_PORT")) eqn:E; [discriminate|].
    now apply Hne. }
  split.
  - split; [exact H4|].
    destruct (ConfigFacts.getEnvAsInt_cases env "SCHEDULER_INTERVAL_MINUTES" 2)
      as [-> | [_ Hr]]; [change (2 ^ 63) with 9223372036854775808; lia | lia].
  - split; [exact H5|].
    destruct (ConfigFacts.getEnvAsInt_cases env "MESSAGE_BATCH_SIZE" 2)
      as [-> | [_ Hr]]; [change (2 ^ 63) with 9223372036854775808; lia | lia].
Qed.

Lemma Load_returns_valid_witness :
  exists cfg,
    config.Load (env_of [("DATABASE_URL", "postgres://db"); ("WEBHOOK_URL", "http://hook");
                         ("WEBHOOK_AUTH_KEY", "key"); ("MESSAGE_BATCH_SIZE", "7");
                         ("SCHEDULER_INTERVAL_MINUTES", "soon")]) = Ok cfg /\
    config.SchedulerIntervalMinutes cfg = 2 /\ config.MessageBatchSize cfg = 7 /\
    config.ServerPort cfg = "8080" /\
    0 < config.SchedulerIntervalMinutes cfg <= 2 ^ 63 - 1.
Proof.
  eexists. split; [vm_compute; reflexivity|].
  split; [reflexivity|]. split; [reflexivity|]. split; [reflexivity|].
  match goal with |- 0 < config.SchedulerIntervalMinutes ?cfg <= _ =>
    destruct (Load_returns_valid
                (env_of [("DATABASE_URL", "postgres://db"); ("WEBHOOK_URL", "http://hook");
                         ("WEBHOOK_AUTH_KEY", "key"); ("MESSAGE_BATCH_SIZE", "7");
                         ("SCHEDULER_INTERVAL_MINUTES", "soon")]) cfg)
      as (_ & _ & _ & _ & _ & H & _); [vm_compute; reflexivity | exact H]
  end.
Defined.

(** X24: a service built from a loaded configuration whose interval is at
    most [MaxMinutes] starts with exactly one loop, about to fire, an
    interval of that many minutes and the configured batch size.  [Load]
    does not impose that bound: with 153722868 minutes it succeeds and
    [NewService] panics. *)
Theorem NewService_from_config (env : config.Env) (cfg : config.Config) :
  config.Load env = Ok cfg ->
  config.SchedulerIntervalMinutes cfg <= MaxMinutes ->
  (exists s,
     control.NewService (config.SchedulerIntervalMinutes cfg)
       (config.MessageBatchSize cfg) = Some s /\
     scheduler.loops (control.sched s) = [scheduler.Firing] /\
     scheduler.interval (control.sched s) =
       config.SchedulerIntervalMinutes cfg * scheduler.Minute /\
     control.intervalMinutes s = config.SchedulerIntervalMinutes cfg /\
     control.messageBatchSize s = config.MessageBatchSize cfg) /\
  (exists env' cfg',
     config.Load env' = Ok cfg' /\
     config.SchedulerIntervalMinutes cfg' = MaxMinutes + 1 /\
     control.NewService (config.SchedulerIntervalMinutes cfg')
       (config.MessageBatchSize cfg') = None).
Proof.
  intros Hload Hmax. split.
  - apply ConfigFacts.Load_positive in Hload as [Hpos _].
    destruct (Start_in_range control.Task (scheduler.Run control.Task)
                control.processUnsent (config.SchedulerIntervalMinutes cfg))
      as (Hret & _); [unfold MaxMinutes in *; lia|].
    destruct (Hret Hpos) as (c' & E & Hi & _ & _ & Hl & _).
    unfold control.NewService. rewrite E. eexists. split; [reflexivity|]. simpl.
    repeat split; assumption.
  - exists (env_of [("DATABASE_URL", "postgres://db"); ("WEBHOOK_URL", "http://hook");
                    ("WEBHOOK_AUTH_KEY", "key");
                    ("SCHEDULER_INTERVAL_MINUTES", "153722868")]).
    eexists. split; [vm_compute; reflexivity|]. split; vm_compute; reflexivity.
Qed.

Lemma NewService_from_config_witness :
  exists s,
    control.NewService 2 7 = Some s /\
    scheduler.loops (control.sched s) = [scheduler.Firing] /\
    scheduler.interval (control.sched s) = 2 * scheduler.Minute.
Proof.
  destruct (NewService_from_config
              (env_of [("DATABASE_URL", "postgres://db"); ("WEBHOOK_URL", "http://hook");
                       ("WEBHOOK_AUTH_KEY", "key"); ("MESSAGE_BATCH_SIZE", "7")])
              {| config.DatabaseURL := "postgres://db"; config.WebhookURL := "http://hook";
                 config.WebhookAuthKey := "key"; config.ServerPort := "8080";
                 config.SchedulerIntervalMinutes := 2; config.MessageBatchSize := 7 |})
    as ((s & E & Hl & Hi & _) & _).
  - vm_compute. reflexivity.
  - vm_compute. discriminate.
  - exists s. repeat split; assumption.
Defined.

(** ** Restart with an interval that is not positive *)

(** X25: a [StartScheduler] with an interval of zero or less leaves the
    trigger stopped: its [Stop] has ended the running loop, its [Start]
    panics before starting another, and the service keeps the rejected
    interval and batch size. *)
Theorem restart_nonpositive_stops (minutes batch : Z) (s0 s s1 : control.Service)
    (es : list control.Event) (n b : Z) :
  control.NewService minutes batch = Some s0 ->
  control.exec es s0 = Some s ->
  control.inflight s = Some (control.ThenStart n b) ->
  - MaxMinutes <= n <= 0 ->
  control.step control.Resume s = Some s1 ->
  scheduler.loops (control.sched s1) = [] /\
  scheduler.wg (control.sched s1) = 0%nat /\
  scheduler.invocations (control.sched s1) = 0%nat /\
  control.intervalMinutes s1 = n /\ control.messageBatchSize s1 = b /\
  control.inflight s1 = None.
Proof.
  intros Hnew Hexec Hin Hn Hres.
  pose proof (ControlFacts.single_loop_exec es s0 s
                (ControlFacts.single_loop_NewService _ _ _ Hnew) Hexec) as [Hw Hl].
  simpl in Hres. unfold control.resume in Hres. rewrite Hin in Hres.
  unfold scheduler.Stop_return in Hres.
  destruct (scheduler.wg (control.sched s)) eqn:Ew; [|discriminate].
  assert (Hnil : scheduler.loops (control.sched s) = []).
  { destruct (scheduler.loops (control.sched s)); [reflexivity | discriminate]. }
  match type of Hres with context [scheduler.Start ?c ?t ?m] =>
    destruct (Start_in_range control.Task c t m) as (_ & Hpan);
      [lia|]; destruct (Hpan ltac:(lia)) as (c' & E & Hl' & Hw' & _);
      rewrite E in Hres
  end.
  injection Hres as <-. simpl in *. unfold scheduler.invocations.
  rewrite Hl', Hw', Hnil. repeat split; reflexivity.
Qed.

Lemma restart_nonpositive_stops_witness :
  exists s0 s s1,
    control.NewService 2 2 = Some s0 /\
    control.exec [control.Loop (scheduler.EvFire 0); control.StartScheduler 0 5;
                  control.Loop (scheduler.EvDone 0); control.Loop (scheduler.EvQuit 0)]
      s0 = Some s /\
    control.step control.Resume s = Some s1 /\
    scheduler.loops (control.sched s1) = [] /\ control.intervalMinutes s1 = 0.
Proof.
  eexists. eexists. eexists. split; [vm_compute; reflexivity|].
  split; [vm_compute; reflexivity|]. split; [vm_compute; reflexivity|].
  match goal with |- scheduler.loops (control.sched ?s1) = [] /\ _ =>
    destruct (restart_nonpositive_stops 2 2 _ _ s1
                [control.Loop (scheduler.EvFire 0); control.StartScheduler 0 5;
                 control.Loop (scheduler.EvDone 0); control.Loop (scheduler.EvQuit 0)]
                0 5 eq_refl eq_refl eq_refl)
      as (H1 & _ & _ & H2 & _); [unfold MaxMinutes; lia | reflexivity |]
  end.
  split; assumption.
Defined.

(** ** Slices of messages *)

(** X26: [ToDomainSlice] and the element-wise [ToPostgres] are inverse to
    each other on slices: lengths and positions are kept, and the element
    at each position is the image of the element at that position. *)
Theorem ToDomainSlice_round_trip :
  (forall l : list messages.Message, map toPostgres (ToDomainSlice l) = l) /\
  (forall ms : list Message, ToDomainSlice (map toPostgres ms) = ms) /\
  (forall l, List.length (ToDomainSlice l) = List.length l) /\
  (forall l i, nth_error (ToDomainSlice l) i = ToDomain (nth_error l i)).
Proof.
  split; [exact toPostgres_toDomain_list|]. split; [|split].
  - intros ms. unfold ToDomainSlice. rewrite map_map.
    induction ms as [|[i p c t a b] ms IH]; simpl; [reflexivity | now rewrite IH].
  - intros l. apply length_map.
  - intros l. unfold ToDomainSlice.
    induction l as [|x l IH]; intros [|i]; simpl; auto.
Qed.
